(** * cargomatic_agent.py: the Navigator of the Cargomatic console script

    A shallow embedding of [src/cargomatic_agent.py].  The pure string
    helpers (the nested function [extract_city], the newline replacement of
    [extract_shipment_info]) are Rocq functions; the methods of
    [CargomaticAgent] are computations in a small state-and-exception monad
    whose browser and operating-system calls are answered by an oracle. *)

From Stdlib Require Import String Ascii DecimalString NArith Arith Bool Lia List.
Import ListNotations.

Local Open Scope nat_scope.

(** ** Python strings

    A [str] is its sequence of Unicode code points. *)

Definition pychar := N.
Definition pystr := list pychar.

(** A source literal made of ASCII characters only. *)
Definition lit (s : string) : pystr := map N_of_ascii (list_ascii_of_string s).
Arguments lit : simpl never.

Definition comma : pychar := 44%N.
Definition newline : pychar := 10%N.
Definition dquote : pychar := 34%N.
(** U+2192, the arrow of the message on line 428. *)
Definition rightwards_arrow : pychar := 8594%N.

(** [str.isspace] on one character, the set that [str.strip()] and
    [str.split()] without argument use. *)
Definition is_space (c : pychar) : bool :=
  ((9 <=? c) && (c <=? 13) || (28 <=? c) && (c <=? 32)
   || (c =? 133) || (c =? 160) || (c =? 5760)
   || (8192 <=? c) && (c <=? 8202)
   || (c =? 8232) || (c =? 8233) || (c =? 8239) || (c =? 8287)
   || (c =? 12288))%N.

(** [sub in s] for a one-character [sub]. *)
Definition contains_char (c : pychar) (s : pystr) : bool := existsb (N.eqb c) s.

(** [s.split(sep)] for a one-character separator: never empty, one part more
    than there are separators. *)
Fixpoint split_char (sep : pychar) (s : pystr) : list pystr :=
  match s with
  | [] => [[]]
  | c :: s' =>
      if (c =? sep)%N then [] :: split_char sep s'
      else match split_char sep s' with
           | [] => [[c]]
           | p :: ps => (c :: p) :: ps
           end
  end.

Fixpoint lstrip (s : pystr) : pystr :=
  match s with
  | [] => []
  | c :: s' => if is_space c then lstrip s' else s
  end.

Definition rstrip (s : pystr) : pystr := rev (lstrip (rev s)).

(** [s.strip()] *)
Definition strip (s : pystr) : pystr := lstrip (rstrip s).

(** The word in progress at the head of [s] and the words after it. *)
Fixpoint words (s : pystr) : pystr * list pystr :=
  match s with
  | [] => ([], [])
  | c :: s' =>
      let (w, ws) := words s' in
      if is_space c
      then ([], match w with [] => ws | _ => w :: ws end)
      else (c :: w, ws)
  end.

(** [s.split()] without argument: the maximal runs of non-space characters. *)
Definition split_ws (s : pystr) : list pystr :=
  let (w, ws) := words s in
  match w with [] => ws | _ => w :: ws end.

(** [s.replace(old, new)] for a one-character [old]. *)
Fixpoint replace_char (old : pychar) (new : pystr) (s : pystr) : pystr :=
  match s with
  | [] => []
  | c :: s' =>
      if (c =? old)%N then new ++ replace_char old new s'
      else c :: replace_char old new s'
  end.

(** [sub in s] for strings. *)
Fixpoint starts_with (sub s : pystr) : bool :=
  match sub, s with
  | [], _ => true
  | _ :: _, [] => false
  | a :: sub', c :: s' => (a =? c)%N && starts_with sub' s'
  end.

Fixpoint contains (sub s : pystr) : bool :=
  starts_with sub s ||
  match s with
  | [] => false
  | _ :: s' => contains sub s'
  end.

(** [s * n] *)
Fixpoint repeat_str (s : pystr) (n : nat) : pystr :=
  match n with
  | O => []
  | S n' => s ++ repeat_str s n'
  end.

(** [str(n)] for a non-negative integer. *)
Definition str_of_nat (n : nat) : pystr :=
  lit (NilEmpty.string_of_uint (Nat.to_uint n)).

(** ** Exceptions *)

Inductive exn_class :=
| AttributeError | IndexError | NameError | TimeoutError | PlaywrightError
| OSError | EOFError | KeyboardInterrupt | SystemExit.

(** [isinstance(e, Exception)]: what [except Exception] catches.  A bare
    [except:] catches the two other classes as well. *)
Definition is_Exception (c : exn_class) : bool :=
  match c with
  | KeyboardInterrupt | SystemExit => false
  | _ => true
  end.

Record exn := mkExn { exn_cls : exn_class; exn_msg : pystr }.

Inductive res (A : Type) :=
| Ok (a : A)
| Exn (e : exn).
Arguments Ok {A} a.
Arguments Exn {A} e.

(** [l[i]] for [i >= 0]. *)
Definition getitem {A} (l : list A) (i : nat) : res A :=
  match nth_error l i with
  | Some x => Ok x
  | None => Exn (mkExn IndexError (lit "list index out of range"))
  end.

(** ** [extract_city], lines 354-362 *)

Definition extract_city (address : pystr) : res pystr :=
  if contains_char comma address then
    let parts := map strip (split_char comma address) in
    if 3 <=? length parts then getitem parts 1
    else if length parts =? 2 then
      match getitem parts 1 with
      | Exn e => Exn e
      | Ok p1 =>
          match p1 with
          | _ :: _ => getitem (split_ws p1) 0
          | [] => getitem parts 1
          end
      end
    else Ok address
  else Ok address.

(** ** The browser and the operating system

    Pages, browser contexts, files and the Playwright driver are handles.
    A Playwright locator is a lazy description of elements: building one
    never talks to the browser, only [count], [inner_text] and [click] do. *)

Definition handle := nat.
Definition page := handle.

Inductive locator :=
| Locator (p : page) (selector : pystr)          (* page.locator(selector) *)
| GetByRole (p : page) (role name : pystr)       (* page.get_by_role(role, name=name) *)
| SubLocator (l : locator) (selector : pystr)    (* l.locator(selector) *)
| First (l : locator)                            (* l.first *)
| Nth (l : locator) (i : nat).                   (* l.nth(i) *)

(** The values the script passes around where Python does not fix a type. *)
Inductive pyval :=
| PyNone
| PyStr (s : pystr)
| PyModule (name : string)
| PyFunction (name : string)
| PyClass (name : string).

(** A call into Playwright or the operating system, indexed by the type of
    what it returns.  [state] and [timeout] are the keyword arguments, [None]
    when the call leaves them out. *)
Inductive call : Type -> Type :=
| SyncPlaywrightStart : call handle
| GetCwd : call pystr
| LaunchPersistentContext (playwright : handle) (user_data_dir : pystr) : call handle
| ContextPages (context : handle) : call (list page)
| NewPage (context : handle) : call page
| SetDefaultTimeout (p : page) (ms : N) : call unit
| Goto (p : page) (url : pystr) : call unit
| Url (p : page) : call pystr
| Title (p : page) : call pystr
| Content (p : page) : call pystr
| WaitForSelector (p : page) (selector : pystr) (state : option pystr)
    (timeout : option N) : call unit
| WaitForFunction (p : page) (expression : pystr) : call unit
| WaitForUrl (p : page) (pattern : pystr) (timeout : option N) : call unit
| WaitForLoadState (p : page) (state : pystr) (timeout : option N) : call unit
| Fill (p : page) (selector : pystr) (value : pyval) : call unit
| Click (p : page) (selector : pystr) : call unit
| Press (p : page) (selector key : pystr) : call unit
| Screenshot (p : page) (path : pystr) : call unit
| BringToFront (p : page) : call unit
| ExpectPage (p : page) : call unit              (* entering page.context.expect_page() *)
| ExpectPageValue (p : page) : call page         (* leaving it: the page that opened *)
| Count (l : locator) : call nat
| InnerText (l : locator) : call pystr
| LocatorClick (l : locator) : call unit
| OpenWrite (path : pystr) : call handle         (* open(path, "w") *)
| FileWrite (f : handle) (data : pystr) : call nat
| FileClose (f : handle) : call unit
| Input (prompt : pystr) : call pystr.

(** What the outside world does: the answer to the call issued as step
    number [n] of the run (it returns or it raises), and [repr] of a list of
    strings, which line 187 formats into a message. *)
Record environment := {
  answer : nat -> forall X, call X -> exn + X;
  repr_list : list pystr -> pystr
}.

(** ** Program points and the log of steps

    Every step that can raise sits at a program point: the source line and
    the rank of the step on that line. *)

Definition site := nat.
Definition pt (line k : nat) : site := 10 * line + k.

Record event := mkEvent { ev_site : site; ev_ok : bool }.

(** ** The agent and the state of a run *)

(** The attributes of a [CargomaticAgent].  [__init__] sets the first five;
    the others exist only once a method has assigned them ([None] here:
    reading the attribute raises AttributeError). *)
Record agent := mkAgent {
  headless : bool;
  browser : option handle;
  page_ : option page;
  playwright : option handle;
  base_url : pystr;
  context : option handle;
  sop_page : option page;
  pickup_location : option pystr;
  delivery_location : option pystr
}.

(** [CargomaticAgent(headless)], lines 10-15 *)
Definition new_agent (headless : bool) : agent :=
  mkAgent headless None None None (lit "https://command-staging.cargomatic.com")
          None None None None.

Definition set_page (v : page) (a : agent) : agent :=
  mkAgent (headless a) (browser a) (Some v) (playwright a) (base_url a)
          (context a) (sop_page a) (pickup_location a) (delivery_location a).
Definition set_playwright (v : handle) (a : agent) : agent :=
  mkAgent (headless a) (browser a) (page_ a) (Some v) (base_url a)
          (context a) (sop_page a) (pickup_location a) (delivery_location a).
Definition set_context (v : handle) (a : agent) : agent :=
  mkAgent (headless a) (browser a) (page_ a) (playwright a) (base_url a)
          (Some v) (sop_page a) (pickup_location a) (delivery_location a).
Definition set_sop_page (v : page) (a : agent) : agent :=
  mkAgent (headless a) (browser a) (page_ a) (playwright a) (base_url a)
          (context a) (Some v) (pickup_location a) (delivery_location a).
Definition set_pickup_location (v : pystr) (a : agent) : agent :=
  mkAgent (headless a) (browser a) (page_ a) (playwright a) (base_url a)
          (context a) (sop_page a) (Some v) (delivery_location a).
Definition set_delivery_location (v : pystr) (a : agent) : agent :=
  mkAgent (headless a) (browser a) (page_ a) (playwright a) (base_url a)
          (context a) (sop_page a) (pickup_location a) (Some v).

(** The state of a run: the agent, what was printed (one entry per [print]),
    the exceptions whose traceback went to stderr, and the steps taken so
    far, newest first. *)
Record world := mkWorld {
  self : agent;
  stdout : list pystr;
  stderr : list exn;
  trace : list event
}.

Definition fresh_world (a : agent) : world := mkWorld a [] [] [].

(** ** The monad of the methods: state and exceptions *)

Definition M (A : Type) : Type := world -> res A * world.

Definition ret {A} (x : A) : M A := fun w => (Ok x, w).

Definition bind {A B} (m : M A) (k : A -> M B) : M B :=
  fun w =>
    match m w with
    | (Ok x, w') => k x w'
    | (Exn e, w') => (Exn e, w')
    end.

Declare Scope py_scope.
Delimit Scope py_scope with py.
Notation "x <- m ;; k" := (bind m (fun x => k))
  (at level 61, m at next level, right associativity) : py_scope.
Notation "m ;; k" := (bind m (fun _ => k))
  (at level 61, right associativity) : py_scope.
Local Open Scope py_scope.

Definition log (s : site) (ok : bool) (w : world) : world :=
  mkWorld (self w) (stdout w) (stderr w) (mkEvent s ok :: trace w).

(** [raise e] at program point [s] *)
Definition raise_at {A} (s : site) (e : exn) : M A :=
  fun w => (Exn e, log s false w).

(** A value computed by pure code that may raise. *)
Definition lift_res {A} (s : site) (r : res A) : M A :=
  match r with
  | Ok x => ret x
  | Exn e => raise_at s e
  end.

Definition get_self : M agent := fun w => (Ok (self w), w).

Definition update_self (f : agent -> agent) : M unit :=
  fun w => (Ok tt, mkWorld (f (self w)) (stdout w) (stderr w) (trace w)).

(** [print(s)]; writing to the terminal is taken not to fail. *)
Definition print (s : pystr) : M unit :=
  fun w => (Ok tt, mkWorld (self w) (stdout w ++ [s]) (stderr w) (trace w)).

(** [traceback.print_exc()] while [e] is being handled *)
Definition print_exc (e : exn) : M unit :=
  fun w => (Ok tt, mkWorld (self w) (stdout w) (stderr w ++ [e]) (trace w)).

(** [time.sleep(seconds)]: a step that takes time and does not raise. *)
Definition sleep (s : site) (seconds : nat) : M unit :=
  fun w => (Ok tt, log s true w).

(** [try: body  except Exception as e: handler e] *)
Definition try_except {A} (body : M A) (handler : exn -> M A) : M A :=
  fun w =>
    match body w with
    | (Ok x, w') => (Ok x, w')
    | (Exn e, w') =>
        if is_Exception (exn_cls e) then handler e w' else (Exn e, w')
    end.

(** [try: body  except: handler] *)
Definition try_bare {A} (body : M A) (handler : M A) : M A :=
  fun w =>
    match body w with
    | (Ok x, w') => (Ok x, w')
    | (Exn _, w') => handler w'
    end.

(** [try: body  finally: final] *)
Definition try_finally {A} (body : M A) (final : M unit) : M A :=
  fun w =>
    let (r, w') := body w in
    match final w' with
    | (Ok _, w'') => (r, w'')
    | (Exn e, w'') => (Exn e, w'')
    end.

(** [for i in range(n)], the loop variable starting at [i], threading the
    variables the body assigns. *)
Fixpoint for_range {St} (n i : nat) (body : nat -> St -> M St) (acc : St) : M St :=
  match n with
  | O => ret acc
  | S n' => acc' <- body i acc ;; for_range n' (S i) body acc'
  end.

Definition attribute_error (obj attr : string) : exn :=
  mkExn AttributeError
        (lit "'" ++ lit obj ++ lit "' object has no attribute '" ++ lit attr ++ lit "'").

Section Navigator.

Variable env : environment.

(** One call to the outside, as step number [length (trace w)]. *)
Definition perform {X} (s : site) (c : call X) : M X :=
  fun w =>
    match answer env (length (trace w)) X c with
    | inr x => (Ok x, log s true w)
    | inl e => (Exn e, log s false w)
    end.

(** [self.page.<attr>]: [self.page] is [None] until [start] has run. *)
Definition self_page (s : site) (attr : string) : M page :=
  a <- get_self ;;
  match page_ a with
  | Some p => ret p
  | None => raise_at s (attribute_error "NoneType" attr)
  end.

(** [self.sop_page]: set by [navigate_to_sop] only. *)
Definition self_sop_page (s : site) : M page :=
  a <- get_self ;;
  match sop_page a with
  | Some p => ret p
  | None => raise_at s (attribute_error "CargomaticAgent" "sop_page")
  end.

(** [self.page.<attr>(...)] *)
Definition on_page {X} (s : site) (attr : string) (c : page -> call X) : M X :=
  p <- self_page s attr ;; perform s (c p).

(** [self.sop_page.<attr>(...)] *)
Definition on_sop_page {X} (s : site) (c : page -> call X) : M X :=
  p <- self_sop_page s ;; perform s (c p).

(** [with open(path, "w") as f: f.write(data)], [open] on line [line] and
    the body on the next one. *)
Definition dump_to_file (line : nat) (path : pystr) (data : site -> M pystr) : M unit :=
  f <- perform (pt line 0) (OpenWrite path) ;;
  try_finally
    (d <- data (pt (S line) 0) ;;
     perform (pt (S line) 1) (FileWrite f d) ;;
     ret tt)
    (perform (pt (S line) 2) (FileClose f)).


(** ** [start], lines 17-34 *)

(** [os.path.join(a, b)] of posixpath. *)
Definition path_join (a b : pystr) : pystr :=
  if starts_with (lit "/") b then b
  else match rev a with
       | [] => b
       | c :: _ => if (c =? 47)%N then a ++ b else a ++ lit "/" ++ b
       end.

Definition start : M pyval :=
  pw <- perform (pt 19 0) SyncPlaywrightStart ;;
  update_self (set_playwright pw) ;;
  cwd <- perform (pt 21 0) GetCwd ;;
  let user_data_dir := path_join cwd (lit "chrome_user_data") in
  ctx <- perform (pt 22 0) (LaunchPersistentContext pw user_data_dir) ;;
  update_self (set_context ctx) ;;
  pages <- perform (pt 29 0) (ContextPages ctx) ;;
  match pages with
  | [] =>
      p <- perform (pt 30 0) (NewPage ctx) ;;
      update_self (set_page p)
  | _ :: _ =>
      pages' <- perform (pt 32 0) (ContextPages ctx) ;;
      p <- lift_res (pt 32 1) (getitem pages' 0) ;;
      update_self (set_page p)
  end ;;
  on_page (pt 33 0) "set_default_timeout" (fun p => SetDefaultTimeout p 15000%N) ;;
  print (lit "Browser started with persistent context.") ;;
  ret PyNone.

(** ** [login], lines 36-70 *)

Definition login (username password : pyval) : M pyval :=
  a <- get_self ;;
  print (lit "Navigating to " ++ base_url a ++ lit "...") ;;
  try_except
    (on_page (pt 40 0) "goto" (fun p => Goto p (base_url a)) ;;
     u <- on_page (pt 43 0) "url" Url ;;
     if contains (lit "login") u then
       print (lit "Logging in...") ;;
       on_page (pt 46 0) "wait_for_selector"
         (fun p => WaitForSelector p (lit "#login-username") None None) ;;
       on_page (pt 49 0) "fill" (fun p => Fill p (lit "#login-username") username) ;;
       on_page (pt 50 0) "fill" (fun p => Fill p (lit "#login-password") password) ;;
       on_page (pt 53 0) "click" (fun p => Click p (lit "#login-submit-button")) ;;
       on_page (pt 57 0) "wait_for_function"
         (fun p => WaitForFunction p (lit "window.location.href.indexOf('login') === -1")) ;;
       u' <- on_page (pt 58 0) "url" Url ;;
       print (lit "Login successful! Current URL: " ++ u')
     else
       print (lit "Already logged in or redirected."))
    (fun e =>
       print (lit "Login failed: " ++ exn_msg e) ;;
       on_page (pt 65 0) "screenshot" (fun p => Screenshot p (lit "login_debug.png")) ;;
       print (lit "Screenshot saved to login_debug.png") ;;
       dump_to_file 68 (lit "login_debug.html") (fun s => on_page s "content" Content) ;;
       print (lit "Dumped login page HTML to login_debug.html")) ;;
  ret PyNone.

(** ** [search_shipment], lines 72-94 *)

Definition search_shipment (reference_number : pystr) : M pyval :=
  print (lit "Searching for shipment: " ++ reference_number) ;;
  u <- on_page (pt 77 0) "url" Url ;;
  (if negb (contains (lit "shipments") u) then
     a <- get_self ;;
     on_page (pt 78 0) "goto" (fun p => Goto p (base_url a ++ lit "/shipments"))
   else ret tt) ;;
  let ref_input_selector :=
    lit "input[placeholder='Enter a reference number (Ex: 123456)']" in
  try_except
    (on_page (pt 84 0) "wait_for_selector"
       (fun p => WaitForSelector p ref_input_selector None (Some 5000%N)) ;;
     on_page (pt 85 0) "fill" (fun p => Fill p ref_input_selector (PyStr reference_number)) ;;
     let apply_button_selector := lit "button.button-hollow-green:has-text('Apply')" in
     on_page (pt 89 0) "click" (fun p => Click p apply_button_selector) ;;
     sleep (pt 91 0) 3)
    (fun e => print (lit "Search failed: " ++ exn_msg e)) ;;
  ret PyNone.

(** ** [get_shipper_info], lines 134-162 *)

Definition get_shipper_info : M pyval :=
  print (lit "Extracting Shipper Information...") ;;
  try_except
    (print (lit "Waiting for page content to load...") ;;
     try_bare
       (on_page (pt 141 0) "wait_for_selector"
          (fun p => WaitForSelector p (lit "text=Loading...") (Some (lit "detached")) (Some 10000%N)))
       (print (lit "Warning: 'Loading...' did not detach or wasn't found.")) ;;
     sleep (pt 146 0) 2 ;;
     p <- self_page (pt 150 0) "locator" ;;
     let shipper_header := Locator p (lit "dt:has-text('Shipper')") in
     n <- perform (pt 151 0) (Count shipper_header) ;;
     if 0 <? n then
       let shipper_content :=
         First (SubLocator shipper_header (lit "xpath=following-sibling::dd")) in
       shipper_name <- perform (pt 153 0) (InnerText shipper_content) ;;
       print (lit "Shipper Information: " ++ shipper_name) ;;
       ret (PyStr shipper_name)
     else
       print (lit "Could not find 'Shipper' header element.") ;;
       ret PyNone)
    (fun e =>
       print (lit "Error extracting shipper info: " ++ exn_msg e) ;;
       ret PyNone).

(** ** [extract_shipment_info], lines 164-194 *)

(** [l[-1]] *)
Definition getitem_last {A} (l : list A) : res A :=
  match rev l with
  | x :: _ => Ok x
  | [] => Exn (mkExn IndexError (lit "list index out of range"))
  end.

(** Lines 170-179: the list [addresses]. *)
Definition read_overlays : M (list pystr) :=
  on_page (pt 170 0) "wait_for_selector"
    (fun p => WaitForSelector p (lit ".gm-style-iw-d") None (Some 10000%N)) ;;
  p <- self_page (pt 173 0) "locator" ;;
  let address_elements := Locator p (lit ".gm-style-iw-d") in
  count <- perform (pt 174 0) (Count address_elements) ;;
  for_range count 0
    (fun i addresses =>
       text <- perform (pt 178 0) (InnerText (Nth address_elements i)) ;;
       ret (addresses ++ [replace_char newline (lit ", ") text]))
    [].

(** Lines 181-189. *)
Definition assign_locations (addresses : list pystr) : M unit :=
  if 2 <=? length addresses then
    pickup <- lift_res (pt 182 0) (getitem addresses 0) ;;
    update_self (set_pickup_location pickup) ;;
    delivery <- lift_res (pt 183 0) (getitem_last addresses) ;;
    update_self (set_delivery_location delivery) ;;
    print (lit "Extracted Pickup Location: " ++ pickup) ;;
    print (lit "Extracted Delivery Location: " ++ delivery)
  else
    print (lit "Warning: Found " ++ str_of_nat (length addresses)
           ++ lit " addresses, expected at least 2. Addresses: "
           ++ repr_list env addresses) ;;
    pickup <- match addresses with
              | _ :: _ => lift_res (pt 188 0) (getitem addresses 0)
              | [] => ret (lit "Unknown")
              end ;;
    update_self (set_pickup_location pickup) ;;
    delivery <- match addresses with
                | _ :: _ => lift_res (pt 189 0) (getitem_last addresses)
                | [] => ret (lit "Unknown")
                end ;;
    update_self (set_delivery_location delivery).

Definition extract_shipment_info : M pyval :=
  print (lit "Extracting shipment information...") ;;
  try_except
    (addresses <- read_overlays ;;
     assign_locations addresses)
    (fun e =>
       print (lit "Error extracting shipment info: " ++ exn_msg e) ;;
       update_self (set_pickup_location (lit "Unknown")) ;;
       update_self (set_delivery_location (lit "Unknown"))) ;;
  ret PyNone.

(** ** [click_shipper_link], lines 196-242 *)

Definition click_shipper_link : M pyval :=
  print (lit "Locating and clicking Shipper link...") ;;
  try_except
    (print (lit "Waiting for page content to load...") ;;
     try_bare
       (on_page (pt 203 0) "wait_for_selector"
          (fun p => WaitForSelector p (lit "text=Loading...") (Some (lit "detached")) (Some 10000%N)))
       (print (lit "Warning: 'Loading...' did not detach or wasn't found.")) ;;
     sleep (pt 208 0) 2 ;;
     p <- self_page (pt 212 0) "locator" ;;
     let shipper_header := Locator p (lit "dt:has-text('Shipper')") in
     n <- perform (pt 213 0) (Count shipper_header) ;;
     if 0 <? n then
       let shipper_content :=
         First (SubLocator shipper_header (lit "xpath=following-sibling::dd")) in
       let shipper_link := First (SubLocator shipper_content (lit "a")) in
       shipper_name <- perform (pt 217 0) (InnerText shipper_link) ;;
       print (lit "Found Shipper: " ++ shipper_name ++ lit ". Clicking link...") ;;
       perform (pt 220 0) (LocatorClick shipper_link) ;;
       try_bare
         (on_page (pt 224 0) "wait_for_load_state"
            (fun p => WaitForLoadState p (lit "domcontentloaded") (Some 10000%N)) ;;
          on_page (pt 227 0) "wait_for_selector"
            (fun p => WaitForSelector p (lit "body") None (Some 5000%N)))
         (print (lit "Warning: domcontentloaded timed out, continuing...")) ;;
       u <- on_page (pt 231 0) "url" Url ;;
       print (lit "Navigated to Shipper Page: " ++ u) ;;
       dump_to_file 234 (lit "shipper_page_debug.html")
         (fun s => on_page s "content" Content) ;;
       print (lit "Dumped shipper page HTML to shipper_page_debug.html")
     else
       print (lit "Could not find 'Shipper' header element."))
    (fun e => print (lit "Error clicking shipper link: " ++ exn_msg e)) ;;
  ret PyNone.

(** ** [navigate_to_sop], lines 244-325 *)

Definition sop_text_selector : pystr :=
  lit "a:has-text('SOP'), a:has-text('Standard Operating Procedure')".

Definition navigate_to_sop : M pyval :=
  print (lit "Looking for SOP document...") ;;
  try_except
    (try_bare
       (on_page (pt 250 0) "wait_for_selector"
          (fun p => WaitForSelector p (lit "text=Loading...") (Some (lit "detached")) (Some 5000%N)))
       (ret tt) ;;
     print (lit "Waiting for SOP section to load...") ;;
     try_bare
       (on_page (pt 257 0) "wait_for_selector"
          (fun p => WaitForSelector p (lit "text=Loading SOP...") (Some (lit "detached")) (Some 15000%N)))
       (print (lit "Warning: 'Loading SOP...' did not detach or wasn't found.")) ;;
     p <- self_page (pt 266 0) "locator" ;;
     let sop_section := Locator p (lit "[data-testid='shipper-sop-items']") in
     n <- perform (pt 267 0) (Count sop_section) ;;
     sop_link <-
       (if 0 <? n then
          let sop_link := First (SubLocator sop_section (lit "a")) in
          k <- perform (pt 270 0) (Count sop_link) ;;
          if k =? 0 then
            p' <- self_page (pt 272 0) "locator" ;;
            ret (First (Locator p' sop_text_selector))
          else ret sop_link
        else
          p' <- self_page (pt 274 0) "locator" ;;
          ret (First (Locator p' sop_text_selector))) ;;
     m <- perform (pt 276 0) (Count sop_link) ;;
     if 0 <? m then
       t <- perform (pt 277 0) (InnerText sop_link) ;;
       print (lit "Found SOP link: " ++ t ++ lit ". Clicking...") ;;
       opener <- self_page (pt 280 0) "context" ;;
       perform (pt 280 1) (ExpectPage opener) ;;
       perform (pt 281 0) (LocatorClick sop_link) ;;
       new_page <- perform (pt 283 0) (ExpectPageValue opener) ;;
       update_self (set_sop_page new_page) ;;
       on_sop_page (pt 284 0) (fun sp => WaitForLoadState sp (lit "domcontentloaded") None) ;;
       u <- on_sop_page (pt 285 0) Url ;;
       print (lit "Navigated to SOP URL: " ++ u) ;;
       u' <- on_sop_page (pt 288 0) Url ;;
       sign_in <-
         (if contains (lit "accounts.google.com") u' then ret true
          else
            title <- on_sop_page (pt 288 1) Title ;;
            ret (contains (lit "Sign in") title)) ;;
       (if sign_in : bool then
          print (lit "Google Sign-In detected.") ;;
          print (lit "!!! USER ACTION REQUIRED !!!") ;;
          print (lit "Please sign in to Google in the browser window.") ;;
          perform (pt 292 0)
            (Input (lit "Press Enter in this terminal after you have successfully signed in and the Sheet is visible...")) ;;
          print (lit "Resuming...")
        else ret tt) ;;
       try_bare
         (on_sop_page (pt 301 0)
            (fun sp => WaitForSelector sp (lit "#docs-editor") None (Some 30000%N)))
         (print (lit "Warning: Timed out waiting for #docs-editor. Proceeding anyway...")) ;;
       on_sop_page (pt 305 0) (fun sp => WaitForLoadState sp (lit "networkidle") None) ;;
       dump_to_file 308 (lit "sop_debug.html") (fun s => on_sop_page s Content) ;;
       print (lit "Dumped SOP HTML to sop_debug.html") ;;
       on_sop_page (pt 311 0) (fun sp => WaitForLoadState sp (lit "networkidle") None) ;;
       dump_to_file 314 (lit "sop_debug.html") (fun s => on_sop_page s Content) ;;
       print (lit "Dumped SOP HTML to sop_debug.html")
     else
       print (lit "SOP link not found on shipper page.") ;;
       dump_to_file 320 (lit "shipper_page_failed_sop.html")
         (fun s => on_page s "content" Content) ;;
       print (lit "Dumped shipper page to shipper_page_failed_sop.html"))
    (fun e => print (lit "Error navigating to SOP: " ++ exn_msg e)) ;;
  ret PyNone.

(** ** [find_rate_card], lines 327-435 *)

(** The f-string of lines 386-404. *)
Definition task_description (pickup_city delivery_city : pystr) : pystr :=
  [newline]
  ++ lit "You are viewing a Google Sheets document with rate card information." ++ [newline]
  ++ [newline]
  ++ lit "Your task:" ++ [newline]
  ++ lit "1. Look at the visible spreadsheet cells" ++ [newline]
  ++ lit "2. Find rows that contain " ++ [dquote] ++ pickup_city ++ [dquote]
  ++ lit " (the origin/pickup city) " ++ [newline]
  ++ lit "3. For matching rows, also check if they match " ++ [dquote] ++ delivery_city
  ++ [dquote] ++ lit " (the destination/delivery city)" ++ [newline]
  ++ lit "4. Extract the rate/price information from the matching row(s)" ++ [newline]
  ++ lit "5. Report back the rate card details you found" ++ [newline]
  ++ [newline]
  ++ lit "The sheet may have columns like: Origin, Destination, Rate, Service Type, etc."
  ++ [newline]
  ++ lit "Focus on finding rows where Origin matches " ++ [dquote] ++ pickup_city
  ++ [dquote] ++ lit " and Destination matches " ++ [dquote] ++ delivery_city ++ [dquote]
  ++ lit ", or vice versa." ++ [newline]
  ++ [newline]
  ++ lit "When you find a match, read the entire row and report all relevant information (rate, service type, any notes, etc.)."
  ++ [newline]
  ++ [newline]
  ++ lit "If you cannot find an exact match for both cities, report what you DO find (e.g., just origin match or just destination match)."
  ++ [newline]
  ++ [newline]
  ++ lit "Return when you have completed the search and extraction." ++ [newline].

(** [arg or getattr(self, attr, 'Unknown')]: an empty string is falsy. *)
Definition arg_or_attribute (arg attr : option pystr) : pystr :=
  match arg with
  | Some (c :: s) => c :: s
  | _ => match attr with
         | Some v => v
         | None => lit "Unknown"
         end
  end.

Definition rule80 : pystr := repeat_str (lit "=") 80.

(** Lines 418-430, the prints that follow [bring_to_front].  The import of
    line 414 binds a module that line 3 has loaded already and does nothing
    else. *)
Definition print_agent_task (pickup_city delivery_city : pystr) : M unit :=
  print ([newline] ++ rule80) ;;
  print (lit "BROWSER AGENT TASK:") ;;
  print rule80 ;;
  print (task_description pickup_city delivery_city) ;;
  print rule80 ;;
  print ([newline] ++ lit "Note: Browser subagent integration requires additional setup.") ;;
  print (lit "For now, the Google Sheet is visible and ready for visual inspection.") ;;
  print (lit "Screenshot saved to: google_sheet_debug.png") ;;
  print ([newline] ++ lit "The agent should:") ;;
  print (lit "  1. Scroll through the 'Current Rates' tab") ;;
  print (lit "  2. Find rows matching: " ++ pickup_city ++ lit " " ++ [rightwards_arrow]
         ++ lit " " ++ delivery_city) ;;
  print (lit "  3. Extract rate and related information") ;;
  print rule80.

(** Lines 332-348: switching to the "Current Rates" tab if there is one. *)
Definition switch_to_current_rates : M unit :=
  try_except
    (print (lit "Checking for 'Current Rates' tab...") ;;
     sp <- self_sop_page (pt 334 0) ;;
     let rate_tab := GetByRole sp (lit "button") (lit "Current Rates") in
     n <- perform (pt 335 0) (Count rate_tab) ;;
     if 0 <? n then
       print (lit "Found 'Current Rates' tab. Clicking...") ;;
       perform (pt 337 0) (LocatorClick (First rate_tab)) ;;
       sleep (pt 338 0) 3
     else
       sp' <- self_sop_page (pt 340 0) ;;
       let rate_tab := Locator sp' (lit "div[role='button']:has-text('Current Rates')") in
       n' <- perform (pt 341 0) (Count rate_tab) ;;
       if 0 <? n' then
         print (lit "Found 'Current Rates' tab (alt selector). Clicking...") ;;
         perform (pt 343 0) (LocatorClick (First rate_tab)) ;;
         sleep (pt 344 0) 3
       else
         print (lit "'Current Rates' tab not found. Using current view."))
    (fun e => print (lit "Error switching tabs: " ++ exn_msg e)).

Definition find_rate_card (pickup delivery : option pystr) : M pyval :=
  print (lit "Searching for applicable rate card using browser agent...") ;;
  switch_to_current_rates ;;
  a <- get_self ;;
  let pickup := arg_or_attribute pickup (pickup_location a) in
  let delivery := arg_or_attribute delivery (delivery_location a) in
  pickup_city <- lift_res (pt 364 0) (extract_city pickup) ;;
  delivery_city <- lift_res (pt 365 0) (extract_city delivery) ;;
  print (lit "Using Pickup: " ++ pickup ++ lit " (searching for: " ++ pickup_city ++ lit ")") ;;
  print (lit "Using Delivery: " ++ delivery ++ lit " (searching for: " ++ delivery_city ++ lit ")") ;;
  print (lit "Waiting for sheet content to render...") ;;
  sleep (pt 372 0) 5 ;;
  try_bare
    (on_sop_page (pt 376 0) (fun sp => Screenshot sp (lit "google_sheet_debug.png")) ;;
     print (lit "Captured screenshot: google_sheet_debug.png"))
    (ret tt) ;;
  print (lit "Launching browser subagent to interpret Google Sheet...") ;;
  try_except
    (on_sop_page (pt 410 0) BringToFront ;;
     print_agent_task pickup_city delivery_city)
    (fun e =>
       print (lit "Error using browser agent: " ++ exn_msg e) ;;
       print_exc e) ;;
  ret PyNone.

(** ** [search_global], lines 96-132 *)

Definition search_global (reference_number : pystr) : M pyval :=
  print (lit "Searching globally for: " ++ reference_number) ;;
  try_except
    (let global_search_selector := lit "input[placeholder='Search for any reference #...']" in
     on_page (pt 103 0) "wait_for_selector"
       (fun p => WaitForSelector p global_search_selector None None) ;;
     on_page (pt 105 0) "fill"
       (fun p => Fill p global_search_selector (PyStr reference_number)) ;;
     on_page (pt 106 0) "press" (fun p => Press p global_search_selector (lit "Enter")) ;;
     print (lit "Search submitted. Waiting for results...") ;;
     let result_selector := lit "a.list-group-item" in
     on_page (pt 111 0) "wait_for_selector"
       (fun p => WaitForSelector p result_selector None (Some 10000%N)) ;;
     print (lit "Clicking first result...") ;;
     on_page (pt 114 0) "click" (fun p => Click p result_selector) ;;
     print (lit "Waiting for navigation to shipment details...") ;;
     on_page (pt 118 0) "wait_for_url"
       (fun p => WaitForUrl p (lit "**/shipments/**") (Some 20000%N)) ;;
     u <- on_page (pt 119 0) "url" Url ;;
     print (lit "Navigated to: " ++ u) ;;
     extract_shipment_info ;;
     click_shipper_link ;;
     navigate_to_sop ;;
     find_rate_card None None ;;
     ret tt)
    (fun e => print (lit "Global search failed: " ++ exn_msg e)) ;;
  ret PyNone.

(** ** [main], lines 446-468 *)

(** The names bound at module level (imports and definitions, lines 1-9 and
    446) and the builtins the module refers to; no other builtin is called
    [username] or [password] either. *)
Definition module_globals : list (string * pyval) :=
  [ ("os", PyModule "os"); ("time", PyModule "time");
    ("sync_playwright", PyFunction "sync_playwright");
    ("load_dotenv", PyFunction "load_dotenv");
    ("CargomaticAgent", PyClass "CargomaticAgent");
    ("main", PyFunction "main");
    ("__name__", PyStr (lit "__main__")) ]%string.

Definition builtins : list (string * pyval) :=
  [ ("print", PyFunction "print"); ("input", PyFunction "input");
    ("open", PyFunction "open"); ("getattr", PyFunction "getattr");
    ("hasattr", PyFunction "hasattr"); ("len", PyFunction "len");
    ("range", PyClass "range"); ("Exception", PyClass "Exception") ]%string.

Definition name_error (name : string) : exn :=
  mkExn NameError (lit "name '" ++ lit name ++ lit "' is not defined").

Fixpoint lookup (name : string) (names : list (string * pyval)) : option pyval :=
  match names with
  | [] => None
  | (n, v) :: rest => if String.eqb n name then Some v else lookup name rest
  end.

(** Reading a name that is not local to the function: the module's globals,
    then the builtins, else NameError. *)
Definition load_global (s : site) (name : string) : M pyval :=
  match lookup name module_globals with
  | Some v => ret v
  | None =>
      match lookup name builtins with
      | Some v => ret v
      | None =>
          raise_at s (name_error name)
      end
  end.

Definition main : M pyval :=
  update_self (fun _ => new_agent false) ;;
  try_finally
    (start ;;
     username <- load_global (pt 453 0) "username" ;;
     password <- load_global (pt 453 1) "password" ;;
     login username password ;;
     search_global (lit "AUT-201270") ;;
     print ([newline] ++ rule80) ;;
     print (lit "Browser staying open for inspection...") ;;
     print (lit "The Google Sheet should be visible in 'Current Rates' tab") ;;
     print rule80 ;;
     sleep (pt 463 0) 10 ;;
     ret tt)
    (ret tt) ;;
  ret PyNone.

End Navigator.

(** ** Concrete environments

    Scripts of the outside world on which the methods are run. *)

(** The answer of a call that succeeds, with nothing on the page. *)
Definition plain_answer {X} (c : call X) : X :=
  match c in call X return X with
  | SyncPlaywrightStart => 1
  | GetCwd => lit "/home/operator"
  | LaunchPersistentContext _ _ => 2
  | ContextPages _ => []
  | NewPage _ => 3
  | SetDefaultTimeout _ _ => tt
  | Goto _ _ => tt
  | Url _ => lit "https://command-staging.cargomatic.com/shipments/AUT-201270"
  | Title _ => lit "SOP"
  | Content _ => lit "<html></html>"
  | WaitForSelector _ _ _ _ => tt
  | WaitForFunction _ _ => tt
  | WaitForUrl _ _ _ => tt
  | WaitForLoadState _ _ _ => tt
  | Fill _ _ _ => tt
  | Click _ _ => tt
  | Press _ _ _ => tt
  | Screenshot _ _ => tt
  | BringToFront _ => tt
  | ExpectPage _ => tt
  | ExpectPageValue _ => 4
  | Count _ => 0
  | InnerText _ => []
  | LocatorClick _ => tt
  | OpenWrite _ => 5
  | FileWrite _ data => length data
  | FileClose _ => tt
  | Input _ => []
  end.

(** [repr] of a list of strings that need no escaping. *)
Fixpoint join (sep : pystr) (l : list pystr) : pystr :=
  match l with
  | [] => []
  | [s] => s
  | s :: rest => s ++ sep ++ join sep rest
  end.

Definition repr_plain (l : list pystr) : pystr :=
  lit "[" ++ join (lit ", ") (map (fun s => lit "'" ++ s ++ lit "'") l) ++ lit "]".

(** Every call succeeds. *)
Definition calm : environment :=
  {| answer := fun _ X c => inr (plain_answer c); repr_list := repr_plain |}.

(** The details page shows the overlays [texts]. *)
Definition overlay_answer (texts : list pystr) {X} (c : call X) : exn + X :=
  match c in call X return exn + X with
  | Count (Locator _ _) => inr (length texts)
  | InnerText (Nth _ i) => inr (nth i texts [])
  | c' => inr (plain_answer c')
  end.

Definition with_overlays (texts : list pystr) : environment :=
  {| answer := fun _ X c => overlay_answer texts c; repr_list := repr_plain |}.

Definition timeout_error : exn :=
  mkExn TimeoutError (lit "Timeout 15000ms exceeded.").

(** Navigation times out; everything else succeeds. *)
Definition goto_times_out : environment :=
  {| answer := fun _ X c =>
       match c in call X return exn + X with
       | Goto _ _ => inl timeout_error
       | Url _ => inr (lit "https://command-staging.cargomatic.com/dashboard")
       | c' => inr (plain_answer c')
       end;
     repr_list := repr_plain |}.

(** The browser is gone: every call on a page raises. *)
Definition browser_closed : environment :=
  {| answer := fun _ X c =>
       match c in call X return exn + X with
       | OpenWrite _ => inr 5
       | FileWrite _ data => inr (length data)
       | FileClose _ => inr tt
       | _ => inl (mkExn PlaywrightError (lit "Target page, context or browser has been closed"))
       end;
     repr_list := repr_plain |}.

(** The operator interrupts the wait for the Google sign-in (Ctrl-C at the
    prompt of line 292); the SOP link exists and opens a sign-in page. *)
Definition operator_interrupts : environment :=
  {| answer := fun _ X c =>
       match c in call X return exn + X with
       | Count _ => inr 1
       | Title _ => inr (lit "Sign in - Google Accounts")
       | Input _ => inl (mkExn KeyboardInterrupt [])
       | c' => inr (plain_answer c')
       end;
     repr_list := repr_plain |}.

(** The browser cannot be launched. *)
Definition launch_fails : environment :=
  {| answer := fun _ X c =>
       match c in call X return exn + X with
       | LaunchPersistentContext _ _ =>
           inl (mkExn PlaywrightError (lit "Executable doesn't exist"))
       | c' => inr (plain_answer c')
       end;
     repr_list := repr_plain |}.

(** An agent whose browser tab is open (after [start]), and one whose SOP
    tab is open as well (after [navigate_to_sop]). *)
Definition started_agent : agent := set_page 3 (new_agent false).
Definition agent_on_sop : agent := set_sop_page 4 started_agent.

(** The details page names a shipper, with a link. *)
Definition shipper_on_page : environment :=
  {| answer := fun _ X c =>
       match c in call X return exn + X with
       | Count _ => inr 1
       | InnerText _ => inr (lit "Acme Freight")
       | c' => inr (plain_answer c')
       end;
     repr_list := repr_plain |}.

(** ** What a run may and may not do

    The log of steps is newest first.  [ordered]: program points are
    visited in source order, and nothing runs at or before a point whose
    step has failed.  [no_retry]: a program point whose step failed is never
    visited again. *)

Definition runs_after (e older : event) : bool :=
  if ev_ok older then ev_site older <=? ev_site e
  else ev_site older <? ev_site e.

Fixpoint ordered (tr : list event) : bool :=
  match tr with
  | [] => true
  | e :: older => forallb (runs_after e) older && ordered older
  end.

Definition not_again (e older : event) : bool :=
  ev_ok older || negb (ev_site older =? ev_site e).

Fixpoint no_retry (tr : list event) : bool :=
  match tr with
  | [] => true
  | e :: older => forallb (not_again e) older && no_retry older
  end.

(** The run has come as far as program point [n]: every step so far lies
    before [n], or at [n] and succeeded. *)
Definition reached (n : site) (o : event) : bool :=
  (ev_site o <? n) || ((ev_site o =? n) && ev_ok o).

Definition reach (n : site) (tr : list event) : Prop :=
  ordered tr = true /\ forallb (reached n) tr = true.

(** Started at or before point [a], the computation keeps the log ordered
    and ends at or before point [b]. *)
Definition steps {A} (a : site) (m : M A) (b : site) : Prop :=
  forall w, reach a (trace w) -> reach b (trace (snd (m w))).

(** The result is a normal return, or an exception outside class
    [Exception], which no [except Exception] clause is meant to stop. *)
Definition quiet_result {A} (r : res A) : Prop :=
  match r with
  | Ok _ => True
  | Exn e => is_Exception (exn_cls e) = false
  end.

Definition quiet {A} (m : M A) : Prop := forall w, quiet_result (fst (m w)).

(** A failed step at a program point between [lo] and [hi]. *)
Definition failed_in (lo hi : site) (e : event) : bool :=
  negb (ev_ok e) && (lo <=? ev_site e) && (ev_site e <=? hi).

(** An exception of class [Exception] leaves the computation only if a step
    between [lo] and [hi] has failed. *)
Definition escapes_only {A} (lo hi : site) (m : M A) : Prop :=
  forall w, quiet_result (fst (m w))
            \/ existsb (failed_in lo hi) (trace (snd (m w))) = true.

(** A property of every run of a method on its own, from an empty log. *)
Definition on_fresh_runs {A} (m : M A) (P : res A -> world -> Prop) : Prop :=
  forall a out err,
    P (fst (m (mkWorld a out err []))) (snd (m (mkWorld a out err []))).

Definition never_retries {A} (m : M A) : Prop :=
  on_fresh_runs m (fun _ w' => no_retry (trace w') = true).

(** The state in which the try block of [extract_shipment_info] starts. *)
Definition entering_extract (w : world) : world :=
  snd (print (lit "Extracting shipment information...") w).

(** ** What a method leaves alone

    [keeps R m]: every run of [m] relates the state before to the state
    after by [R]. *)

Definition keeps {A} (R : world -> world -> Prop) (m : M A) : Prop :=
  forall w, R w (snd (m w)).

(** The attributes that identify the session: none of the methods below
    [start] assigns them. *)
Definition session_of (a : agent) :=
  (headless a, browser a, page_ a, playwright a, base_url a, context a).

(** The agent is as it was. *)
Definition same_agent (w w' : world) : Prop := self w' = self w.

(** Only [pickup_location] and [delivery_location] may differ. *)
Definition same_but_locations (w w' : world) : Prop :=
  session_of (self w') = session_of (self w)
  /\ sop_page (self w') = sop_page (self w).

(** The log only grows; only [sop_page] may differ, and only once the new
    tab has been obtained (the step of line 283 succeeded). *)
Definition same_but_sop_page (w w' : world) : Prop :=
  (exists steps_taken, trace w' = steps_taken ++ trace w)
  /\ session_of (self w') = session_of (self w)
  /\ pickup_location (self w') = pickup_location (self w)
  /\ delivery_location (self w') = delivery_location (self w)
  /\ (sop_page (self w') = sop_page (self w)
      \/ In (mkEvent (pt 283 0) true) (trace w')).

(** The session is as it was. *)
Definition same_session (w w' : world) : Prop :=
  session_of (self w') = session_of (self w).

(** What the rules for [keeps] need of a relation. *)
Record frame_relation (R : world -> world -> Prop) : Prop := {
  frame_refl : forall w, R w w;
  frame_trans : forall w1 w2 w3, R w1 w2 -> R w2 w3 -> R w1 w3;
  frame_log : forall s ok w, R w (log s ok w);
  frame_print : forall s w, R w (snd (print s w));
  frame_print_exc : forall e w, R w (snd (print_exc e w))
}.

(** * Properties *)

(** ** Splitting and trimming *)

Lemma split_char_not_nil sep s : split_char sep s <> [].
Proof.
  destruct s as [|c s]; simpl; [discriminate|].
  destruct (c =? sep)%N; [discriminate|].
  destruct (split_char sep s); discriminate.
Qed.

Lemma split_char_no_sep sep s :
  contains_char sep s = false -> split_char sep s = [s].
Proof.
  induction s as [|c s IH]; simpl; intros H; [reflexivity|].
  apply orb_false_elim in H as [Hc Hs].
  rewrite N.eqb_sym in Hc. rewrite Hc, (IH Hs). reflexivity.
Qed.

Lemma split_char_several sep s :
  2 <= length (split_char sep s) -> contains_char sep s = true.
Proof.
  intros H. destruct (contains_char sep s) eqn:E; [reflexivity|].
  rewrite (split_char_no_sep _ _ E) in H. simpl in H. lia.
Qed.

Lemma lstrip_head s c r : lstrip s = c :: r -> is_space c = false.
Proof.
  induction s as [|a s IH]; simpl; [discriminate|].
  destruct (is_space a) eqn:E; [exact IH|].
  intros H. injection H as -> _. exact E.
Qed.

Lemma strip_head s c r : strip s = c :: r -> is_space c = false.
Proof. unfold strip. apply lstrip_head. Qed.

(** A string that starts with a non-space character has a first word. *)
Lemma split_ws_head c r :
  is_space c = false -> exists w ws, split_ws (c :: r) = (c :: w) :: ws.
Proof.
  intros H. unfold split_ws. simpl. destruct (words r) as [w ws].
  rewrite H. exists w, ws. reflexivity.
Qed.

Lemma extract_city_two_parts address p1 p2 :
  split_char comma address = [p1; p2] ->
  extract_city address =
  match strip p2 with
  | _ :: _ => getitem (split_ws (strip p2)) 0
  | [] => Ok []
  end.
Proof.
  intros H. unfold extract_city.
  rewrite (split_char_several comma address) by (rewrite H; simpl; lia).
  rewrite H. simpl. destruct (strip p2); reflexivity.
Qed.

(** ** Claims on [extract_city] *)

(** C2: for an address that splits on commas into exactly two parts,
    [extract_city] returns the first whitespace-separated token of the
    trimmed second part; the trimmed part has no token only when it is
    empty, and the result is then the empty string. *)
Theorem extract_city_two_parts_first_token :
  forall address p1 p2,
    split_char comma address = [p1; p2] ->
    match split_ws (strip p2) with
    | token :: _ => extract_city address = Ok token
    | [] => strip p2 = [] /\ extract_city address = Ok []
    end.
Proof.
  intros address p1 p2 H.
  rewrite (extract_city_two_parts _ _ _ H).
  destruct (strip p2) as [|c r] eqn:E.
  - split; reflexivity.
  - destruct (split_ws_head c r (strip_head _ _ _ E)) as (w & ws & ->).
    reflexivity.
Qed.

Lemma extract_city_two_parts_first_token_witness :
  split_char comma (lit "Oakland,  CA 94607 ") = [lit "Oakland"; lit "  CA 94607 "]
  /\ extract_city (lit "Oakland,  CA 94607 ") = Ok (lit "CA").
Proof.
  split; [reflexivity|].
  exact (extract_city_two_parts_first_token
           (lit "Oakland,  CA 94607 ") (lit "Oakland") (lit "  CA 94607 ") eq_refl).
Defined.

(** C3: for an address that splits on commas into three or more parts,
    [extract_city] returns the second part, trimmed. *)
Theorem extract_city_three_parts_second_trimmed :
  forall address,
    3 <= length (split_char comma address) ->
    extract_city address = Ok (strip (nth 1 (split_char comma address) [])).
Proof.
  intros address H. unfold extract_city.
  rewrite (split_char_several comma address) by lia.
  cbv zeta. rewrite length_map.
  destruct (Nat.leb_spec 3 (length (split_char comma address))) as [_|C]; [|lia].
  destruct (split_char comma address) as [|p0 [|p1 rest]]; simpl in H; try lia.
  reflexivity.
Qed.

Lemma extract_city_three_parts_second_trimmed_witness :
  3 <= length (split_char comma (lit "500 Dock Rd ,  Port of Oakland , CA, USA"))
  /\ extract_city (lit "500 Dock Rd ,  Port of Oakland , CA, USA")
     = Ok (lit "Port of Oakland").
Proof.
  split; [vm_compute; lia|].
  apply (extract_city_three_parts_second_trimmed
           (lit "500 Dock Rd ,  Port of Oakland , CA, USA")).
  vm_compute; lia.
Defined.

(** C4: the two documented examples. *)
Theorem extract_city_examples :
  extract_city (lit "123 Main St, Springfield, IL 62704") = Ok (lit "Springfield")
  /\ extract_city (lit "Chicago, IL") = Ok (lit "IL").
Proof. split; vm_compute; reflexivity. Qed.

(** C5: an address without a comma is returned unchanged. *)
Theorem extract_city_no_comma :
  forall address,
    contains_char comma address = false -> extract_city address = Ok address.
Proof. intros address H. unfold extract_city. rewrite H. reflexivity. Qed.

Lemma extract_city_no_comma_witness :
  contains_char comma (lit "Unknown") = false
  /\ extract_city (lit "Unknown") = Ok (lit "Unknown").
Proof.
  split; [reflexivity|].
  apply (extract_city_no_comma (lit "Unknown")). reflexivity.
Defined.

Lemma extract_city_returns address : exists city, extract_city address = Ok city.
Proof.
  unfold extract_city.
  destruct (contains_char comma address); [|eauto].
  cbv zeta. rewrite length_map.
  destruct (split_char comma address) as [|p0 [|p1 [|p2 rest]]] eqn:E; simpl; eauto.
  - destruct (strip p1) as [|c r] eqn:E1; [unfold getitem; simpl; eauto|].
    destruct (split_ws_head c r (strip_head _ _ _ E1)) as (w & ws & ->).
    unfold getitem. simpl. eauto.
  - unfold getitem. simpl. eauto.
Qed.

(** C9: [extract_city] returns a string on every input and never raises;
    in the two-part branch the index [parts[1].split()[0]] is only taken
    when the trimmed second part is not empty, where [split()] has a first
    element, and an empty second part gives the empty string. *)
Theorem extract_city_total :
  forall address,
    (exists city, extract_city address = Ok city)
    /\ (forall p1 p2,
          split_char comma address = [p1; p2] ->
          (strip p2 <> [] -> exists token rest,
              split_ws (strip p2) = token :: rest
              /\ extract_city address = Ok token)
          /\ (strip p2 = [] -> extract_city address = Ok [])).
Proof.
  intros address. split; [apply extract_city_returns|].
  intros p1 p2 H. rewrite (extract_city_two_parts _ _ _ H). split.
  - destruct (strip p2) as [|c r] eqn:E; [congruence|]. intros _.
    destruct (split_ws_head c r (strip_head _ _ _ E)) as (w & ws & ->).
    eauto.
  - intros ->. reflexivity.
Qed.

Lemma extract_city_total_witness :
  split_char comma (lit "Oakland, ") = [lit "Oakland"; lit " "]
  /\ strip (lit " ") = []
  /\ extract_city (lit "Oakland, ") = Ok [].
Proof.
  split; [reflexivity|]. split; [reflexivity|].
  apply (proj2 (proj2 (extract_city_total (lit "Oakland, ")) (lit "Oakland") (lit " ") eq_refl)).
  reflexivity.
Defined.

(** ** Running the combinators *)

Lemma run_bind {A B} (m : M A) (k : A -> M B) w :
  bind m k w =
  match m w with
  | (Ok x, w') => k x w'
  | (Exn e, w') => (Exn e, w')
  end.
Proof. reflexivity. Qed.

Lemma run_try_except {A} (body : M A) handler w :
  try_except body handler w =
  match body w with
  | (Ok x, w') => (Ok x, w')
  | (Exn e, w') => if is_Exception (exn_cls e) then handler e w' else (Exn e, w')
  end.
Proof. reflexivity. Qed.

(** ** [extract_shipment_info] *)

Lemma last_default {A} (x : A) (l : list A) (d d' : A) :
  last (x :: l) d = last (x :: l) d'.
Proof.
  revert x. induction l as [|y l IH]; intros x; [reflexivity|].
  change (last (y :: l) d = last (y :: l) d'). apply IH.
Qed.

Lemma getitem_last_cons {A} (x : A) (l : list A) :
  getitem_last (x :: l) = Ok (last (x :: l) x).
Proof.
  unfold getitem_last.
  destruct (exists_last (l := x :: l)) as (l' & y & E); [discriminate|].
  rewrite E, rev_unit, last_last. reflexivity.
Qed.

(** Lines 181-189 always complete: the first and the last address, or the
    sentinel when there is none. *)
Lemma assign_locations_spec env addresses w :
  exists w',
    assign_locations env addresses w = (Ok tt, w')
    /\ pickup_location (self w') = Some (hd (lit "Unknown") addresses)
    /\ delivery_location (self w') = Some (last addresses (lit "Unknown"))
    /\ trace w' = trace w.
Proof.
  unfold assign_locations.
  destruct addresses as [|a [|b rest]].
  - eexists. repeat split.
  - eexists. repeat split.
  - change (2 <=? length (a :: b :: rest)) with true. cbv iota.
    change (getitem (a :: b :: rest) 0) with (Ok a).
    rewrite getitem_last_cons.
    rewrite (last_default a (b :: rest) a (lit "Unknown")).
    eexists. repeat split.
Qed.

(** What [extract_shipment_info] leaves in the two attributes, from the
    outcome of the overlay lookup of lines 170-179. *)
Lemma extract_shipment_info_outcome env w :
  match read_overlays env (entering_extract w) with
  | (Ok addresses, _) =>
      fst (extract_shipment_info env w) = Ok PyNone
      /\ pickup_location (self (snd (extract_shipment_info env w)))
         = Some (hd (lit "Unknown") addresses)
      /\ delivery_location (self (snd (extract_shipment_info env w)))
         = Some (last addresses (lit "Unknown"))
  | (Exn e, _) =>
      if is_Exception (exn_cls e) then
        fst (extract_shipment_info env w) = Ok PyNone
        /\ pickup_location (self (snd (extract_shipment_info env w)))
           = Some (lit "Unknown")
        /\ delivery_location (self (snd (extract_shipment_info env w)))
           = Some (lit "Unknown")
      else fst (extract_shipment_info env w) = Exn e
  end.
Proof.
  unfold extract_shipment_info.
  rewrite run_bind.
  change (print (lit "Extracting shipment information...") w)
    with (Ok tt, entering_extract w).
  cbv iota. rewrite run_bind, run_try_except, run_bind.
  destruct (read_overlays env (entering_extract w)) as [[addresses|e] w1].
  - destruct (assign_locations_spec env addresses w1) as (w' & Ea & Hp & Hd & _).
    rewrite Ea. cbn [ret fst snd]. auto.
  - destruct (is_Exception (exn_cls e)); [|reflexivity].
    cbn. auto.
Qed.

Lemma skipn_nth {A} (l : list A) (i : nat) (d : A) :
  i < length l -> skipn i l = nth i l d :: skipn (S i) l.
Proof.
  revert i. induction l as [|x l IH]; intros i H; simpl in H; [lia|].
  destruct i as [|i]; [reflexivity|].
  change (skipn i l = nth i l d :: skipn (S i) l). apply IH. lia.
Qed.

(** The loop of lines 177-179 on a page that shows the overlays [texts]. *)
Lemma collect_with_overlays texts (loc : locator) n :
  forall i acc w,
    i + n <= length texts ->
    fst (for_range n i
           (fun i addresses =>
              text <- perform (with_overlays texts) (pt 178 0) (InnerText (Nth loc i)) ;;
              ret (addresses ++ [replace_char newline (lit ", ") text]))
           acc w)
    = Ok (acc ++ map (replace_char newline (lit ", ")) (firstn n (skipn i texts))).
Proof.
  induction n as [|n IH]; intros i acc w H.
  - cbn [for_range firstn map ret fst]. rewrite app_nil_r. reflexivity.
  - cbn [for_range]. rewrite run_bind.
    change ((text <- perform (with_overlays texts) (pt 178 0) (InnerText (Nth loc i)) ;;
             ret (acc ++ [replace_char newline (lit ", ") text])) w)
      with (Ok (acc ++ [replace_char newline (lit ", ") (nth i texts [])]),
            log (pt 178 0) true w).
    cbv iota. rewrite IH by lia.
    rewrite (skipn_nth texts i []) by lia.
    cbn [firstn map]. rewrite <- app_assoc. reflexivity.
Qed.

(** On such a page, with the tab open, [addresses] is the list of the
    overlay texts with each line break replaced by a comma and a space. *)
Lemma read_overlays_with_overlays texts w p :
  page_ (self w) = Some p ->
  fst (read_overlays (with_overlays texts) w)
  = Ok (map (replace_char newline (lit ", ")) texts).
Proof.
  intros Hp. unfold read_overlays, on_page, self_page.
  repeat first
    [ rewrite Hp
    | rewrite run_bind
    | progress cbn [get_self self log trace ret perform with_overlays answer
                    overlay_answer plain_answer] ].
  rewrite collect_with_overlays by (cbn; lia).
  cbn [skipn app]. rewrite firstn_all. reflexivity.
Qed.




(** On a page that shows the overlays [texts], with the tab open: pickup is
    the first and delivery the last text (line breaks replaced), or the
    sentinel when the page shows none. *)
Lemma extract_shipment_info_with_overlays texts w p :
  page_ (self w) = Some p ->
  let addresses := map (replace_char newline (lit ", ")) texts in
  let w' := snd (extract_shipment_info (with_overlays texts) w) in
  pickup_location (self w') = Some (hd (lit "Unknown") addresses)
  /\ delivery_location (self w') = Some (last addresses (lit "Unknown")).
Proof.
  intros Hp addresses w'. subst w'.
  pose proof (extract_shipment_info_outcome (with_overlays texts) w) as H.
  pose proof (read_overlays_with_overlays texts (entering_extract w) p Hp) as E.
  destruct (read_overlays (with_overlays texts) (entering_extract w)) as [r w1].
  cbn [fst] in E. subst r. tauto.
Qed.


(** ** [find_rate_card] *)

Lemma run_try_bare {A} (body handler : M A) w :
  try_bare body handler w =
  match body w with
  | (Ok x, w') => (Ok x, w')
  | (Exn _, w') => handler w'
  end.
Proof. reflexivity. Qed.

Lemma run_try_finally {A} (body : M A) final w :
  try_finally body final w =
  match body w with
  | (r, w') =>
      match final w' with
      | (Ok _, w'') => (r, w'')
      | (Exn e, w'') => (Exn e, w'')
      end
  end.
Proof. unfold try_finally. destruct (body w). reflexivity. Qed.

Lemma starts_with_app sub rest : starts_with sub (sub ++ rest) = true.
Proof.
  induction sub as [|c sub IH]; [reflexivity|].
  simpl. rewrite N.eqb_refl. exact IH.
Qed.

Lemma contains_here sub rest : contains sub (sub ++ rest) = true.
Proof.
  destruct (sub ++ rest) eqn:E; simpl; rewrite <- E, starts_with_app; reflexivity.
Qed.

Lemma contains_app_r sub before s :
  contains sub s = true -> contains sub (before ++ s) = true.
Proof.
  intros H. induction before as [|c before IH]; [exact H|].
  simpl. rewrite IH. apply orb_true_r.
Qed.

(** The task description names both cities. *)
Lemma task_description_names_cities pickup_city delivery_city :
  contains pickup_city (task_description pickup_city delivery_city) = true
  /\ contains delivery_city (task_description pickup_city delivery_city) = true.
Proof.
  unfold task_description.
  split; repeat first [ apply contains_here | apply contains_app_r ].
Qed.

Lemma run_perform env {X} s (c : call X) w :
  perform env s c w =
  match answer env (length (trace w)) X c with
  | inr x => (Ok x, log s true w)
  | inl e => (Exn e, log s false w)
  end.
Proof. reflexivity. Qed.

(** One step of a symbolic run: unfold the combinator at the head, or
    split on what the environment, the agent or a test decides. *)
Ltac run_step :=
  first
    [ rewrite run_bind
    | rewrite run_try_except
    | rewrite run_try_bare
    | rewrite run_try_finally
    | rewrite run_perform
    | progress unfold on_page, on_sop_page, self_page, self_sop_page, dump_to_file
    | progress cbn [ret print print_exc sleep log raise_at lift_res get_self update_self
                    self stdout stderr trace fst snd
                    is_Exception exn_cls attribute_error]
    | match goal with
      | |- context [answer ?env ?n ?X ?c] =>
          let e := fresh "e" in let x := fresh "x" in
          destruct (answer env n X c) as [e|x]
      | |- context [match sop_page ?a with _ => _ end] =>
          destruct (sop_page a)
      | |- context [match page_ ?a with _ => _ end] =>
          destruct (page_ a)
      | |- context [is_Exception (exn_cls ?e)] =>
          let E := fresh "E" in destruct (is_Exception (exn_cls e)) eqn:E
      | |- context [if ?b then _ else _] =>
          destruct b
      end ].

(** Lines 332-348 leave the agent as it is and let no [Exception] out; an
    exception they let through was raised by their last step. *)
Lemma switch_to_current_rates_frame env w :
  quiet_result (fst (switch_to_current_rates env w))
  /\ self (snd (switch_to_current_rates env w)) = self w
  /\ match fst (switch_to_current_rates env w) with
     | Ok _ => True
     | Exn _ => exists s rest,
         trace (snd (switch_to_current_rates env w)) = mkEvent s false :: rest
     end.
Proof.
  unfold switch_to_current_rates.
  repeat run_step.
  all: split; [exact I || assumption | split; [reflexivity | eauto]].
Qed.




(** ** [main] *)

Lemma load_global_username s :
  load_global s "username" = raise_at s (name_error "username").
Proof. reflexivity. Qed.

(** C8 as stated fails: when the browser cannot be launched, [start]
    raises, and [main] ends with that exception and not with a NameError. *)
Lemma main_when_launch_fails :
  ~ (forall env w, exists e w',
        main env w = (Exn e, w') /\ exn_cls e = NameError).
Proof.
  intros H.
  destruct (H launch_fails (fresh_world (new_agent true))) as (e & w' & Hrun & Hcls).
  vm_compute in Hrun. injection Hrun as <- _.
  discriminate Hcls.
Qed.

(** C8, amended: neither [username] nor [password] is bound at module level
    or in the builtins; in every run of [main] in which [start] returns,
    evaluating the arguments of [agent.login] on line 453 raises NameError
    for [username], nothing catches it, and [login] is never entered: the
    run ends in the state [start] left, with the failed step of line 453.
    When [start] raises, that exception leaves [main] instead. *)
Theorem main_raises_name_error :
  forall env w,
    lookup "username" (module_globals ++ builtins) = None
    /\ lookup "password" (module_globals ++ builtins) = None
    /\ match start env (mkWorld (new_agent false) (stdout w) (stderr w) (trace w)) with
       | (Ok _, w1) =>
           main env w = (Exn (name_error "username"), log (pt 453 0) false w1)
       | (Exn e, w1) => main env w = (Exn e, w1)
       end.
Proof.
  intros env w. split; [reflexivity|]. split; [reflexivity|].
  unfold main.
  rewrite run_bind. cbn [update_self]. rewrite run_bind, run_try_finally, run_bind.
  destruct (start env _) as [[v|e] w1].
  - rewrite run_bind, load_global_username. reflexivity.
  - reflexivity.
Qed.

(** ** The order of steps *)

Lemma reached_mono n m o : n <= m -> reached n o = true -> reached m o = true.
Proof.
  unfold reached. intros Hnm H.
  apply orb_true_iff in H as [H|H].
  - apply Nat.ltb_lt in H. apply orb_true_iff. left. apply Nat.ltb_lt. lia.
  - apply andb_true_iff in H as [Hs Hok]. apply Nat.eqb_eq in Hs.
    destruct (Nat.eq_dec n m) as [<-|Hne].
    + rewrite Hs, Nat.eqb_refl, Hok. apply orb_true_r.
    + apply orb_true_iff. left. apply Nat.ltb_lt. lia.
Qed.

Lemma reached_runs_after n s ok o :
  n <= s -> reached n o = true -> runs_after (mkEvent s ok) o = true.
Proof.
  unfold reached, runs_after. cbn [ev_site]. intros Hns H.
  apply orb_true_iff in H as [H|H].
  - apply Nat.ltb_lt in H.
    destruct (ev_ok o); [apply Nat.leb_le | apply Nat.ltb_lt]; lia.
  - apply andb_true_iff in H as [Hs ->]. apply Nat.eqb_eq in Hs.
    apply Nat.leb_le. lia.
Qed.

Lemma forallb_impl {A} (f g : A -> bool) l :
  (forall x, f x = true -> g x = true) -> forallb f l = true -> forallb g l = true.
Proof.
  intros H. rewrite !forallb_forall. auto.
Qed.

Lemma reach_nil n : reach n [].
Proof. split; reflexivity. Qed.

Lemma reach_mono n m tr : n <= m -> reach n tr -> reach m tr.
Proof.
  intros Hnm [Ho Hr]. split; [exact Ho|].
  revert Hr. apply forallb_impl. intros o. apply reached_mono. exact Hnm.
Qed.

(** A step at [s], at or after the point reached, keeps the log ordered;
    the run is then past [s]... *)
Lemma reach_log n s ok tr :
  n <= s -> reach n tr -> reach (S s) (mkEvent s ok :: tr).
Proof.
  intros Hns [Ho Hr]. split; cbn [ordered forallb].
  - rewrite Ho, andb_true_r. revert Hr. apply forallb_impl.
    intros o. apply reached_runs_after. exact Hns.
  - apply andb_true_iff. split.
    + unfold reached. cbn [ev_site]. apply orb_true_iff. left. apply Nat.ltb_lt. lia.
    + revert Hr. apply forallb_impl. intros o. apply reached_mono. lia.
Qed.

(** ... and still at [s] when the step succeeded. *)
Lemma reach_log_ok n s tr :
  n <= s -> reach n tr -> reach s (mkEvent s true :: tr).
Proof.
  intros Hns [Ho Hr]. split; cbn [ordered forallb].
  - rewrite Ho, andb_true_r. revert Hr. apply forallb_impl.
    intros o. apply reached_runs_after. exact Hns.
  - apply andb_true_iff. split.
    + unfold reached. cbn [ev_site ev_ok]. rewrite Nat.eqb_refl. apply orb_true_r.
    + revert Hr. apply forallb_impl. intros o. apply reached_mono. exact Hns.
Qed.

Lemma ordered_no_retry tr : ordered tr = true -> no_retry tr = true.
Proof.
  induction tr as [|e older IH]; [reflexivity|].
  cbn [ordered no_retry]. intros H. apply andb_true_iff in H as [Hall Ho].
  rewrite (IH Ho), andb_true_r. revert Hall. apply forallb_impl.
  intros o. unfold runs_after, not_again.
  destruct (ev_ok o); [reflexivity|]. intros H. apply Nat.ltb_lt in H.
  cbn [orb]. apply negb_true_iff. apply Nat.eqb_neq. lia.
Qed.

Lemma steps_weaken {A} a a' b b' (m : M A) :
  a' <= a -> b <= b' -> steps a m b -> steps a' m b'.
Proof.
  intros Ha Hb H w Hw. apply (reach_mono b b'); [exact Hb|].
  apply H. apply (reach_mono a' a); assumption.
Qed.

Lemma steps_call {A} a lo hi (m : M A) : a <= lo -> steps lo m hi -> steps a m hi.
Proof. intros Ha. apply steps_weaken; [exact Ha | lia]. Qed.

Lemma steps_ret {A} a (x : A) : steps a (ret x) a.
Proof. intros w Hw. exact Hw. Qed.

Lemma steps_print a s : steps a (print s) a.
Proof. intros w Hw. exact Hw. Qed.

Lemma steps_print_exc a e : steps a (print_exc e) a.
Proof. intros w Hw. exact Hw. Qed.

Lemma steps_get_self a : steps a get_self a.
Proof. intros w Hw. exact Hw. Qed.

Lemma steps_update_self a f : steps a (update_self f) a.
Proof. intros w Hw. exact Hw. Qed.

Lemma steps_sleep a s n : a <= s -> steps a (sleep s n) (S s).
Proof. intros Ha w Hw. cbn. apply (reach_log a); assumption. Qed.

Lemma steps_raise_at {A} a s e : a <= s -> steps a (@raise_at A s e) (S s).
Proof. intros Ha w Hw. cbn. apply (reach_log a); assumption. Qed.

Lemma steps_lift_res {A} a s (r : res A) : a <= s -> steps a (lift_res s r) (S s).
Proof.
  intros Ha. destruct r; [|apply steps_raise_at; exact Ha].
  intros w Hw. cbn. apply (reach_mono a); [lia | exact Hw].
Qed.

Lemma steps_perform env {X} a s (c : call X) : a <= s -> steps a (perform env s c) (S s).
Proof.
  intros Ha w Hw. rewrite run_perform.
  destruct (answer env _ X c); cbn; apply (reach_log a); assumption.
Qed.

Lemma steps_bind {A B} a b c (m : M A) (k : A -> M B) :
  steps a m b -> (forall x, steps b (k x) c) -> steps a (bind m k) (Nat.max b c).
Proof.
  intros Hm Hk w Hw. rewrite run_bind. specialize (Hm w Hw).
  destruct (m w) as [[x|e] w1]; cbn [snd] in Hm.
  - apply (reach_mono c); [lia|]. apply Hk. exact Hm.
  - cbn [snd]. apply (reach_mono b); [lia | exact Hm].
Qed.

Lemma steps_try_except {A} a b c (body : M A) handler :
  steps a body b -> (forall e, steps b (handler e) c) ->
  steps a (try_except body handler) (Nat.max b c).
Proof.
  intros Hm Hh w Hw. rewrite run_try_except. specialize (Hm w Hw).
  destruct (body w) as [[x|e] w1]; cbn [snd] in Hm.
  - cbn [snd]. apply (reach_mono b); [lia | exact Hm].
  - destruct (is_Exception (exn_cls e)).
    + apply (reach_mono c); [lia|]. apply Hh. exact Hm.
    + cbn [snd]. apply (reach_mono b); [lia | exact Hm].
Qed.

Lemma steps_try_bare {A} a b c (body handler : M A) :
  steps a body b -> steps b handler c -> steps a (try_bare body handler) (Nat.max b c).
Proof.
  intros Hm Hh w Hw. rewrite run_try_bare. specialize (Hm w Hw).
  destruct (body w) as [[x|e] w1]; cbn [snd] in Hm.
  - cbn [snd]. apply (reach_mono b); [lia | exact Hm].
  - apply (reach_mono c); [lia|]. apply Hh. exact Hm.
Qed.

Lemma steps_try_finally {A} a b c (body : M A) final :
  steps a body b -> steps b final c -> steps a (try_finally body final) c.
Proof.
  intros Hm Hf w Hw. rewrite run_try_finally. specialize (Hm w Hw).
  destruct (body w) as [r w1]. cbn [snd] in Hm. specialize (Hf w1 Hm).
  destruct (final w1) as [[x|e] w2]; exact Hf.
Qed.

Lemma steps_if {A} a b c (t : bool) (m1 m2 : M A) :
  steps a m1 b -> steps a m2 c -> steps a (if t then m1 else m2) (Nat.max b c).
Proof.
  intros H1 H2. destruct t.
  - apply (steps_weaken a a b); [lia | lia | exact H1].
  - apply (steps_weaken a a c); [lia | lia | exact H2].
Qed.

Lemma steps_match_list {A T} a b c (l : list T) (m1 m2 : M A) :
  steps a m1 b -> steps a m2 c ->
  steps a (match l with [] => m1 | _ :: _ => m2 end) (Nat.max b c).
Proof.
  intros H1 H2. destruct l.
  - apply (steps_weaken a a b); [lia | lia | exact H1].
  - apply (steps_weaken a a c); [lia | lia | exact H2].
Qed.

Lemma steps_self_page a s attr : a <= s -> steps a (self_page s attr) (S s).
Proof.
  intros Ha w Hw. unfold self_page. rewrite run_bind. cbn [get_self].
  destruct (page_ (self w)); cbn.
  - apply (reach_mono a); [lia | exact Hw].
  - apply (reach_log a); assumption.
Qed.

Lemma steps_self_sop_page a s : a <= s -> steps a (self_sop_page s) (S s).
Proof.
  intros Ha w Hw. unfold self_sop_page. rewrite run_bind. cbn [get_self].
  destruct (sop_page (self w)); cbn.
  - apply (reach_mono a); [lia | exact Hw].
  - apply (reach_log a); assumption.
Qed.

Lemma steps_on_page env {X} a s attr (c : page -> call X) :
  a <= s -> steps a (on_page env s attr c) (S s).
Proof.
  intros Ha w Hw. unfold on_page, self_page. rewrite run_bind, run_bind. cbn [get_self].
  destruct (page_ (self w)); cbn [ret raise_at snd].
  - apply (steps_perform env a s); assumption.
  - apply (reach_log a); assumption.
Qed.

Lemma steps_on_sop_page env {X} a s (c : page -> call X) :
  a <= s -> steps a (on_sop_page env s c) (S s).
Proof.
  intros Ha w Hw. unfold on_sop_page, self_sop_page. rewrite run_bind, run_bind.
  cbn [get_self].
  destruct (sop_page (self w)); cbn [ret raise_at snd].
  - apply (steps_perform env a s); assumption.
  - apply (reach_log a); assumption.
Qed.

(** The loop of lines 177-179 repeats one program point; it goes on only
    while the step succeeds. *)
Lemma steps_for_range_perform env {X St} a s (c : nat -> call X) (f : St -> X -> St) n :
  a <= s ->
  forall i acc,
    steps a (for_range n i (fun i acc => x <- perform env s (c i) ;; ret (f acc x)) acc)
          (S s).
Proof.
  intros Ha i acc w Hw.
  assert (Hs : reach s (trace w)) by (apply (reach_mono a); assumption).
  clear Hw. revert i acc w Hs.
  induction n as [|n IH]; intros i acc w Hs.
  - cbn. apply (reach_mono s); [lia | exact Hs].
  - cbn [for_range]. rewrite run_bind, run_bind, run_perform.
    destruct (answer env _ X (c i)) as [e|x].
    + cbn. apply (reach_log s); [lia | exact Hs].
    + cbn [ret]. apply IH. cbn. apply (reach_log_ok s); [lia | exact Hs].
Qed.

(** A comparison of two program points, by computation. *)
Ltac site_le :=
  match goal with
  | |- ?g => tryif has_evar g then fail else (apply Nat.leb_le; vm_compute; reflexivity)
  end.

Create HintDb steps_db.

(** The rule for the construct at the head of the computation; a method or
    block whose bounds are known is taken from [steps_db]. *)
Ltac steps_step :=
  lazymatch goal with
  | |- steps _ (bind _ _) _ => eapply steps_bind; [ | intro ]
  | |- steps _ (ret _) _ => apply steps_ret
  | |- steps _ (print _) _ => apply steps_print
  | |- steps _ (print_exc _) _ => apply steps_print_exc
  | |- steps _ get_self _ => apply steps_get_self
  | |- steps _ (update_self _) _ => apply steps_update_self
  | |- steps _ (sleep _ _) _ => apply steps_sleep; site_le
  | |- steps _ (raise_at _ _) _ => apply steps_raise_at; site_le
  | |- steps _ (lift_res _ _) _ => apply steps_lift_res; site_le
  | |- steps _ (perform _ _ _) _ => apply steps_perform; site_le
  | |- steps _ (on_page _ _ _ _) _ => apply steps_on_page; site_le
  | |- steps _ (on_sop_page _ _ _) _ => apply steps_on_sop_page; site_le
  | |- steps _ (self_page _ _) _ => apply steps_self_page; site_le
  | |- steps _ (self_sop_page _) _ => apply steps_self_sop_page; site_le
  | |- steps _ (try_except _ _) _ => eapply steps_try_except; [ | intro ]
  | |- steps _ (try_bare _ _) _ => eapply steps_try_bare
  | |- steps _ (try_finally _ _) _ => eapply steps_try_finally
  | |- steps _ (for_range _ _ _ _) _ => apply steps_for_range_perform; site_le
  | |- steps _ (if _ then _ else _) _ => first [eapply steps_if | eapply steps_match_list]
  | |- steps _ _ _ =>
      eapply steps_call; cycle 1; [ solve [eauto with steps_db] | site_le ]
  end.

Ltac steps_of_body := cbv zeta; unfold dump_to_file; repeat steps_step.

Lemma login_steps env u p : steps (pt 40 0) (login env u p) (pt 70 0).
Proof.
  eapply steps_weaken; [apply Nat.le_refl | | unfold login; steps_of_body].
  site_le.
Qed.

Lemma search_shipment_steps env r : steps (pt 77 0) (search_shipment env r) (pt 95 0).
Proof.
  eapply steps_weaken; [apply Nat.le_refl | | unfold search_shipment; steps_of_body].
  site_le.
Qed.

Lemma get_shipper_info_steps env : steps (pt 141 0) (get_shipper_info env) (pt 163 0).
Proof.
  eapply steps_weaken; [apply Nat.le_refl | | unfold get_shipper_info; steps_of_body].
  site_le.
Qed.

Lemma read_overlays_steps env : steps (pt 170 0) (read_overlays env) (pt 180 0).
Proof.
  eapply steps_weaken; [apply Nat.le_refl | | unfold read_overlays; steps_of_body].
  site_le.
Qed.

Lemma assign_locations_steps env l : steps (pt 180 0) (assign_locations env l) (pt 190 0).
Proof.
  eapply steps_weaken; [apply Nat.le_refl | | unfold assign_locations; steps_of_body].
  site_le.
Qed.

#[local] Hint Resolve read_overlays_steps assign_locations_steps : steps_db.

Lemma extract_shipment_info_steps env :
  steps (pt 170 0) (extract_shipment_info env) (pt 195 0).
Proof.
  eapply steps_weaken; [apply Nat.le_refl | | unfold extract_shipment_info; steps_of_body].
  site_le.
Qed.

Lemma click_shipper_link_steps env :
  steps (pt 203 0) (click_shipper_link env) (pt 243 0).
Proof.
  eapply steps_weaken; [apply Nat.le_refl | | unfold click_shipper_link; steps_of_body].
  site_le.
Qed.

Lemma navigate_to_sop_steps env : steps (pt 250 0) (navigate_to_sop env) (pt 326 0).
Proof.
  eapply steps_weaken; [apply Nat.le_refl | | unfold navigate_to_sop; steps_of_body].
  site_le.
Qed.

Lemma find_rate_card_steps env pickup delivery :
  steps (pt 334 0) (find_rate_card env pickup delivery) (pt 436 0).
Proof.
  eapply steps_weaken;
    [apply Nat.le_refl | |
     unfold find_rate_card, switch_to_current_rates, print_agent_task; steps_of_body].
  site_le.
Qed.

#[local] Hint Resolve extract_shipment_info_steps click_shipper_link_steps
  navigate_to_sop_steps find_rate_card_steps : steps_db.

Lemma search_global_steps env r : steps (pt 103 0) (search_global env r) (pt 436 0).
Proof.
  eapply steps_weaken; [apply Nat.le_refl | | unfold search_global; steps_of_body].
  site_le.
Qed.

Lemma steps_never_retries {A} a b (m : M A) : steps a m b -> never_retries m.
Proof.
  intros H ag out err. apply ordered_no_retry.
  apply (H (mkWorld ag out err [])). apply reach_nil.
Qed.

(** ** What an [except Exception] clause stops *)

Lemma quiet_ret {A} (x : A) : quiet (ret x).
Proof. intros w. exact I. Qed.

Lemma quiet_print s : quiet (print s).
Proof. intros w. exact I. Qed.

Lemma quiet_print_exc e : quiet (print_exc e).
Proof. intros w. exact I. Qed.

Lemma quiet_get_self : quiet get_self.
Proof. intros w. exact I. Qed.

Lemma quiet_update_self f : quiet (update_self f).
Proof. intros w. exact I. Qed.

Lemma quiet_sleep s n : quiet (sleep s n).
Proof. intros w. exact I. Qed.

Lemma quiet_extract_city s address : quiet (lift_res s (extract_city address)).
Proof.
  intros w. destruct (extract_city_returns address) as [city ->]. exact I.
Qed.

Lemma quiet_bind {A B} (m : M A) (k : A -> M B) :
  quiet m -> (forall x, quiet (k x)) -> quiet (bind m k).
Proof.
  intros Hm Hk w. rewrite run_bind. specialize (Hm w).
  destruct (m w) as [[x|e] w1]; [apply Hk | exact Hm].
Qed.

(** Whatever the try block does, the result is quiet when the handler is. *)
Lemma quiet_try_except {A} (body : M A) handler :
  (forall e, quiet (handler e)) -> quiet (try_except body handler).
Proof.
  intros Hh w. rewrite run_try_except.
  destruct (body w) as [[x|e] w1]; [exact I|].
  destruct (is_Exception (exn_cls e)) eqn:E; [apply Hh | exact E].
Qed.

Lemma quiet_try_bare {A} (body handler : M A) :
  quiet handler -> quiet (try_bare body handler).
Proof.
  intros Hh w. rewrite run_try_bare.
  destruct (body w) as [[x|e] w1]; [exact I | apply Hh].
Qed.

Ltac quiet_step :=
  lazymatch goal with
  | |- quiet (bind _ _) => apply quiet_bind; [ | intro ]
  | |- quiet (ret _) => apply quiet_ret
  | |- quiet (print _) => apply quiet_print
  | |- quiet (print_exc _) => apply quiet_print_exc
  | |- quiet get_self => apply quiet_get_self
  | |- quiet (update_self _) => apply quiet_update_self
  | |- quiet (sleep _ _) => apply quiet_sleep
  | |- quiet (lift_res _ (extract_city _)) => apply quiet_extract_city
  | |- quiet (try_except _ _) => apply quiet_try_except; intro
  | |- quiet (try_bare _ _) => apply quiet_try_bare
  end.

Lemma get_shipper_info_quiet env : quiet (get_shipper_info env).
Proof. unfold get_shipper_info. repeat quiet_step. Qed.

Lemma extract_shipment_info_quiet env : quiet (extract_shipment_info env).
Proof. unfold extract_shipment_info. repeat quiet_step. Qed.

Lemma click_shipper_link_quiet env : quiet (click_shipper_link env).
Proof. unfold click_shipper_link. repeat quiet_step. Qed.

Lemma navigate_to_sop_quiet env : quiet (navigate_to_sop env).
Proof. unfold navigate_to_sop. repeat quiet_step. Qed.

Lemma find_rate_card_quiet env pickup delivery : quiet (find_rate_card env pickup delivery).
Proof.
  unfold find_rate_card, switch_to_current_rates. cbv zeta. repeat quiet_step.
Qed.

Lemma search_global_quiet env r : quiet (search_global env r).
Proof. unfold search_global. repeat quiet_step. Qed.

(** ** Where an exception can leave [login] and [search_shipment] *)

Lemma escapes_quiet {A} lo hi (m : M A) : quiet m -> escapes_only lo hi m.
Proof. intros H w. left. apply H. Qed.

Lemma escapes_bind {A B} lo hi (m : M A) (k : A -> M B) :
  escapes_only lo hi m -> (forall x, escapes_only lo hi (k x)) ->
  escapes_only lo hi (bind m k).
Proof.
  intros Hm Hk w. rewrite run_bind. specialize (Hm w).
  destruct (m w) as [[x|e] w1]; [apply Hk | exact Hm].
Qed.

Lemma escapes_try_except {A} lo hi (body : M A) handler :
  (forall e, escapes_only lo hi (handler e)) ->
  escapes_only lo hi (try_except body handler).
Proof.
  intros Hh w. rewrite run_try_except.
  destruct (body w) as [[x|e] w1]; [left; exact I|].
  destruct (is_Exception (exn_cls e)) eqn:E; [apply Hh | left; exact E].
Qed.

Lemma failed_in_here lo hi s : lo <= s -> s <= hi -> failed_in lo hi (mkEvent s false) = true.
Proof.
  intros H1 H2. unfold failed_in. cbn.
  apply Nat.leb_le in H1, H2. rewrite H1, H2. reflexivity.
Qed.

Lemma escapes_perform env {X} lo hi s (c : call X) :
  lo <= s -> s <= hi -> escapes_only lo hi (perform env s c).
Proof.
  intros H1 H2 w. rewrite run_perform.
  destruct (answer env _ X c); [right | left; exact I].
  cbn. rewrite failed_in_here by assumption. reflexivity.
Qed.

Lemma escapes_on_page env {X} lo hi s attr (c : page -> call X) :
  lo <= s -> s <= hi -> escapes_only lo hi (on_page env s attr c).
Proof.
  intros H1 H2 w. unfold on_page, self_page. rewrite run_bind, run_bind.
  cbn [get_self]. destruct (page_ (self w)); cbn [ret raise_at].
  - apply escapes_perform; assumption.
  - right. cbn. rewrite failed_in_here by assumption. reflexivity.
Qed.

Lemma escapes_try_finally_perform env {A} lo hi s (body : M A) (c : call unit) :
  escapes_only lo hi body -> lo <= s -> s <= hi ->
  escapes_only lo hi (try_finally body (perform env s c)).
Proof.
  intros Hb H1 H2 w. rewrite run_try_finally. specialize (Hb w).
  destruct (body w) as [r w1]. rewrite run_perform.
  destruct (answer env _ unit c); cbn [fst snd] in *.
  - right. cbn. rewrite failed_in_here by assumption. reflexivity.
  - destruct Hb as [Hb|Hb]; [left; exact Hb | right].
    cbn. exact Hb.
Qed.

Lemma escapes_if {A} lo hi (t : bool) (m1 m2 : M A) :
  escapes_only lo hi m1 -> escapes_only lo hi m2 ->
  escapes_only lo hi (if t then m1 else m2).
Proof. destruct t; auto. Qed.

Ltac escapes_step :=
  lazymatch goal with
  | |- escapes_only _ _ (bind _ _) => apply escapes_bind; [ | intro ]
  | |- escapes_only _ _ (try_except _ _) => apply escapes_try_except; intro
  | |- escapes_only _ _ (try_finally _ (perform _ _ _)) =>
      apply escapes_try_finally_perform; [ | site_le | site_le ]
  | |- escapes_only _ _ (perform _ _ _) => apply escapes_perform; site_le
  | |- escapes_only _ _ (on_page _ _ _ _) => apply escapes_on_page; site_le
  | |- escapes_only _ _ (if _ then _ else _) => apply escapes_if
  | |- escapes_only _ _ _ => apply escapes_quiet; solve [repeat quiet_step]
  end.

(** An [Exception] leaves [login] only from the debug steps of its handler,
    lines 65-69. *)
Lemma login_escapes env u p : escapes_only (pt 65 0) (pt 69 2) (login env u p).
Proof. unfold login, dump_to_file. repeat escapes_step. Qed.

(** An [Exception] leaves [search_shipment] only from the page check before
    its try block, lines 77-78. *)
Lemma search_shipment_escapes env r :
  escapes_only (pt 77 0) (pt 78 0) (search_shipment env r).
Proof. unfold search_shipment. cbv zeta. repeat escapes_step. Qed.

(** ** The catch-log-continue policy *)


(** With the browser gone, the debug screenshot in the handler of [login]
    raises in its turn, and that exception leaves [login]. *)
Lemma login_handler_raises :
  fst (login browser_closed (PyStr (lit "operator")) (PyStr (lit "secret"))
         (fresh_world started_agent))
  = Exn (mkExn PlaywrightError (lit "Target page, context or browser has been closed"))
  /\ trace (snd (login browser_closed (PyStr (lit "operator")) (PyStr (lit "secret"))
                   (fresh_world started_agent)))
     = [mkEvent (pt 65 0) false; mkEvent (pt 40 0) false].
Proof. split; vm_compute; reflexivity. Qed.

(** Ctrl-C at the prompt of line 292 is no [Exception]: it passes the
    handler of [navigate_to_sop]. *)
Lemma navigate_to_sop_lets_interrupt_through :
  fst (navigate_to_sop operator_interrupts (fresh_world started_agent))
  = Exn (mkExn KeyboardInterrupt []).
Proof. vm_compute. reflexivity. Qed.


(** * Further properties *)

(** ** The city returned by [extract_city] *)

Lemma split_char_parts_no_sep sep s :
  Forall (fun p => contains_char sep p = false) (split_char sep s).
Proof.
  induction s as [|c s IH]; simpl.
  - constructor; [reflexivity | constructor].
  - destruct (N.eqb_spec c sep) as [->|Hne].
    + constructor; [reflexivity | exact IH].
    + destruct (split_char sep s) as [|p ps]; [repeat constructor|].
      * simpl. rewrite orb_false_r. apply N.eqb_neq. congruence.
      * inversion IH as [|? ? Hp Hps]; subst. constructor; [|exact Hps].
        simpl. rewrite Hp, orb_false_r. apply N.eqb_neq. congruence.
Qed.

Lemma contains_char_app c s t :
  contains_char c (s ++ t) = contains_char c s || contains_char c t.
Proof. apply existsb_app. Qed.

Lemma contains_char_rev c s : contains_char c (rev s) = contains_char c s.
Proof.
  induction s as [|a s IH]; [reflexivity|].
  cbn [rev]. rewrite contains_char_app, IH.
  unfold contains_char. cbn [existsb]. rewrite orb_false_r. apply orb_comm.
Qed.

Lemma split_char_two_parts sep s :
  contains_char sep s = true -> 2 <= length (split_char sep s).
Proof.
  induction s as [|c s IH]; [discriminate|].
  intros H. cbn [split_char].
  destruct (N.eqb_spec c sep) as [->|Hne].
  - pose proof (split_char_not_nil sep s).
    destruct (split_char sep s); [congruence | simpl; lia].
  - unfold contains_char in H. cbn [existsb] in H.
    rewrite (proj2 (N.eqb_neq sep c)) in H by congruence.
    specialize (IH H). destruct (split_char sep s); simpl in *; lia.
Qed.

Lemma contains_char_lstrip c s :
  contains_char c s = false -> contains_char c (lstrip s) = false.
Proof.
  induction s as [|a s IH]; [reflexivity|].
  intros H. simpl. destruct (is_space a); [|exact H].
  apply IH. simpl in H. apply orb_false_elim in H. tauto.
Qed.

Lemma contains_char_strip c s :
  contains_char c s = false -> contains_char c (strip s) = false.
Proof.
  intros H. unfold strip, rstrip. apply contains_char_lstrip.
  rewrite contains_char_rev. apply contains_char_lstrip.
  rewrite contains_char_rev. exact H.
Qed.

Lemma words_no_char c s :
  contains_char c s = false ->
  contains_char c (fst (words s)) = false
  /\ Forall (fun t => contains_char c t = false) (snd (words s)).
Proof.
  induction s as [|a s IH]; intros H.
  - split; [reflexivity | constructor].
  - simpl in H. apply orb_false_elim in H as [Ha Hs].
    destruct (IH Hs) as [Hw Hws]. simpl.
    destruct (words s) as [w ws]. cbn [fst snd] in *.
    destruct (is_space a); cbn [fst snd].
    + split; [reflexivity|]. destruct w; [exact Hws | constructor; assumption].
    + split; [|exact Hws]. simpl. rewrite Ha, Hw. reflexivity.
Qed.

Lemma split_ws_no_char c s :
  contains_char c s = false ->
  Forall (fun t => contains_char c t = false) (split_ws s).
Proof.
  intros H. destruct (words_no_char c s H) as [Hw Hws].
  unfold split_ws. destruct (words s) as [w ws]. cbn [fst snd] in *.
  destruct w; [exact Hws | constructor; assumption].
Qed.

Lemma getitem_Forall {A} (P : A -> Prop) l i x :
  Forall P l -> getitem l i = Ok x -> P x.
Proof.
  unfold getitem. intros HP H.
  destruct (nth_error l i) as [y|] eqn:E; [|discriminate].
  injection H as <-. rewrite Forall_forall in HP. apply HP.
  eapply nth_error_In. exact E.
Qed.

(** The city never contains a comma, whatever the address; so a second
    extraction gives the city back. *)
Theorem extract_city_no_comma_in_result :
  forall address city,
    extract_city address = Ok city ->
    contains_char comma city = false /\ extract_city city = Ok city.
Proof.
  intros address city H.
  assert (Hc : contains_char comma city = false).
  { unfold extract_city in H.
    destruct (contains_char comma address) eqn:E; [|injection H as <-; exact E].
    cbv zeta in H.
    assert (Hparts : Forall (fun p => contains_char comma p = false)
                       (map strip (split_char comma address))).
    { apply Forall_map.
      eapply Forall_impl; [|apply split_char_parts_no_sep].
      intros p. apply contains_char_strip. }
    pose proof (split_char_two_parts comma address E) as Hlen.
    rewrite <- (length_map strip) in Hlen.
    destruct (Nat.leb_spec 3 (length (map strip (split_char comma address)))).
    - exact (getitem_Forall _ _ _ _ Hparts H).
    - destruct (Nat.eqb_spec (length (map strip (split_char comma address))) 2); [|lia].
      destruct (getitem (map strip (split_char comma address)) 1) as [p1|ex] eqn:E1;
        [|discriminate].
      pose proof (getitem_Forall _ _ _ _ Hparts E1) as Hp1. cbv beta in Hp1.
      destruct p1 as [|c r].
      + injection H as <-. reflexivity.
      + exact (getitem_Forall _ _ _ _ (split_ws_no_char comma _ Hp1) H). }
  split; [exact Hc|]. unfold extract_city. rewrite Hc. reflexivity.
Qed.

Lemma extract_city_no_comma_in_result_witness :
  extract_city (lit "500 Dock Rd, Port of Oakland, CA 94607") = Ok (lit "Port of Oakland")
  /\ contains_char comma (lit "Port of Oakland") = false
  /\ extract_city (lit "Port of Oakland") = Ok (lit "Port of Oakland").
Proof.
  split; [reflexivity|].
  exact (extract_city_no_comma_in_result
           (lit "500 Dock Rd, Port of Oakland, CA 94607") (lit "Port of Oakland") eq_refl).
Defined.

Lemma lstrip_length s : length (lstrip s) <= length s.
Proof.
  induction s as [|c s IH]; [reflexivity|].
  simpl. destruct (is_space c); simpl; lia.
Qed.

Lemma lstrip_idempotent s : lstrip (lstrip s) = lstrip s.
Proof.
  destruct (lstrip s) as [|c r] eqn:E; [reflexivity|].
  simpl. rewrite (lstrip_head _ _ _ E). reflexivity.
Qed.

(** A string kept whole by [lstrip] keeps every non-empty prefix whole. *)
Lemma lstrip_prefix_fixed x y :
  x <> [] -> lstrip (x ++ y) = x ++ y -> lstrip x = x.
Proof.
  destruct x as [|h x]; [congruence|]. intros _ H. simpl in *.
  destruct (is_space h); [|reflexivity].
  pose proof (lstrip_length (x ++ y)) as L. rewrite H in L. simpl in L. lia.
Qed.

(** Trimming on the left keeps the right end clean. *)
Lemma lstrip_keeps_right_end u :
  lstrip (rev u) = rev u -> lstrip (rev (lstrip u)) = rev (lstrip u).
Proof.
  induction u as [|a u IH]; [reflexivity|].
  intros H. simpl. destruct (is_space a); [|exact H].
  apply IH. destruct u as [|b u]; [reflexivity|].
  apply (lstrip_prefix_fixed _ [a]); [|exact H].
  cbn [rev]. intros Hn. apply app_eq_nil in Hn. destruct Hn. discriminate.
Qed.

Lemma rstrip_strip s : rstrip (strip s) = strip s.
Proof.
  unfold strip. unfold rstrip at 1.
  rewrite lstrip_keeps_right_end; [apply rev_involutive|].
  unfold rstrip. rewrite rev_involutive. apply lstrip_idempotent.
Qed.

Lemma strip_idempotent s : strip (strip s) = strip s.
Proof.
  unfold strip at 1. rewrite rstrip_strip. unfold strip. apply lstrip_idempotent.
Qed.

Lemma words_no_space s :
  Forall (fun c => is_space c = false) (fst (words s))
  /\ Forall (Forall (fun c => is_space c = false)) (snd (words s)).
Proof.
  induction s as [|a s [Hw Hws]]; [split; constructor|].
  simpl. destruct (words s) as [w ws]. cbn [fst snd] in *.
  destruct (is_space a) eqn:E; cbn [fst snd].
  - split; [constructor|]. destruct w; [exact Hws | constructor; assumption].
  - split; [constructor; assumption | exact Hws].
Qed.

(** The tokens of [split()] hold no whitespace at all. *)
Lemma split_ws_no_space s : Forall (Forall (fun c => is_space c = false)) (split_ws s).
Proof.
  destruct (words_no_space s) as [Hw Hws].
  unfold split_ws. destruct (words s) as [w ws]. cbn [fst snd] in *.
  destruct w; [exact Hws | constructor; assumption].
Qed.

Lemma lstrip_no_space t : Forall (fun c => is_space c = false) t -> lstrip t = t.
Proof.
  intros H. destruct t as [|c t]; [reflexivity|].
  inversion H as [|? ? Hc _]; subst. simpl. rewrite Hc. reflexivity.
Qed.

Lemma strip_no_space t : Forall (fun c => is_space c = false) t -> strip t = t.
Proof.
  intros H. unfold strip, rstrip.
  rewrite (lstrip_no_space (rev t)) by (apply Forall_rev; exact H).
  rewrite rev_involutive. apply lstrip_no_space. exact H.
Qed.

(** For an address with a comma the city is trimmed: it starts and ends
    with no whitespace. *)
Theorem extract_city_trimmed :
  forall address city,
    contains_char comma address = true ->
    extract_city address = Ok city ->
    strip city = city.
Proof.
  intros address city E H. unfold extract_city in H. rewrite E in H. cbv zeta in H.
  assert (Hparts : Forall (fun p => strip p = p) (map strip (split_char comma address))).
  { apply Forall_map. apply Forall_forall. intros p _. apply strip_idempotent. }
  pose proof (split_char_two_parts comma address E) as Hlen.
  rewrite <- (length_map strip) in Hlen.
  destruct (Nat.leb_spec 3 (length (map strip (split_char comma address)))).
  - exact (getitem_Forall _ _ _ _ Hparts H).
  - destruct (Nat.eqb_spec (length (map strip (split_char comma address))) 2); [|lia].
    destruct (getitem (map strip (split_char comma address)) 1) as [p1|ex] eqn:E1;
      [|discriminate].
    destruct p1 as [|c r].
    + injection H as <-. reflexivity.
    + apply strip_no_space.
      exact (getitem_Forall _ _ _ _ (split_ws_no_space (c :: r)) H).
Qed.

Lemma extract_city_trimmed_witness :
  contains_char comma (lit "500 Dock Rd ,   Port of Oakland  , CA") = true
  /\ extract_city (lit "500 Dock Rd ,   Port of Oakland  , CA") = Ok (lit "Port of Oakland")
  /\ strip (lit "Port of Oakland") = lit "Port of Oakland".
Proof.
  split; [reflexivity|]. split; [reflexivity|].
  exact (extract_city_trimmed (lit "500 Dock Rd ,   Port of Oakland  , CA")
           (lit "Port of Oakland") eq_refl eq_refl).
Defined.

(** ** The locations stored by [extract_shipment_info] *)

Lemma replace_char_removes old new s :
  contains_char old new = false ->
  contains_char old (replace_char old new s) = false.
Proof.
  intros Hnew. induction s as [|c s IH]; [reflexivity|].
  cbn [replace_char]. destruct (N.eqb_spec c old) as [->|Hne].
  - rewrite contains_char_app, Hnew, IH. reflexivity.
  - unfold contains_char in *. cbn [existsb]. rewrite IH, orb_false_r.
    apply N.eqb_neq. congruence.
Qed.

(** Whatever the page answers, every address the loop of lines 177-179
    collects is free of line breaks. *)
Lemma collect_no_newline env (loc : locator) n :
  forall i acc w,
    Forall (fun a => contains_char newline a = false) acc ->
    match for_range n i
            (fun i addresses =>
               text <- perform env (pt 178 0) (InnerText (Nth loc i)) ;;
               ret (addresses ++ [replace_char newline (lit ", ") text]))
            acc w
    with
    | (Ok addresses, _) => Forall (fun a => contains_char newline a = false) addresses
    | (Exn _, _) => True
    end.
Proof.
  induction n as [|n IH]; intros i acc w Hacc; [exact Hacc|].
  cbn [for_range]. rewrite run_bind, run_bind, run_perform.
  destruct (answer env _ _ (InnerText (Nth loc i))) as [e|text]; [exact I|].
  cbn [ret]. apply IH. apply Forall_app. split; [exact Hacc|].
  constructor; [|constructor]. apply replace_char_removes. reflexivity.
Qed.

Lemma read_overlays_no_newline env w :
  match read_overlays env w with
  | (Ok addresses, _) => Forall (fun a => contains_char newline a = false) addresses
  | (Exn _, _) => True
  end.
Proof.
  unfold read_overlays. rewrite run_bind.
  destruct (on_page env _ _ _ w) as [[[]|e] w1]; [|exact I].
  rewrite run_bind. destruct (self_page _ _ w1) as [[p|e] w2]; [|exact I].
  cbv zeta. rewrite run_bind.
  destruct (perform env _ _ w2) as [[n|e] w3]; [|exact I].
  apply collect_no_newline. constructor.
Qed.


(** ** [start] *)


(** ** What the methods leave alone *)

Section KeepsRules.

Variable R : world -> world -> Prop.
Hypothesis HR : frame_relation R.

Lemma keeps_ret {A} (x : A) : keeps R (ret x).
Proof. intros w. apply (frame_refl R HR). Qed.

Lemma keeps_get_self : keeps R get_self.
Proof. intros w. apply (frame_refl R HR). Qed.

Lemma keeps_print s : keeps R (print s).
Proof. intros w. apply (frame_print R HR). Qed.

Lemma keeps_print_exc e : keeps R (print_exc e).
Proof. intros w. apply (frame_print_exc R HR). Qed.

Lemma keeps_sleep s n : keeps R (sleep s n).
Proof. intros w. apply (frame_log R HR). Qed.

Lemma keeps_raise_at {A} s e : keeps R (@raise_at A s e).
Proof. intros w. apply (frame_log R HR). Qed.

Lemma keeps_lift_res {A} s (r : res A) : keeps R (lift_res s r).
Proof. destruct r; [apply keeps_ret | apply keeps_raise_at]. Qed.

Lemma keeps_perform env {X} s (c : call X) : keeps R (perform env s c).
Proof.
  intros w. rewrite run_perform.
  destruct (answer env _ X c); apply (frame_log R HR).
Qed.

Lemma keeps_bind {A B} (m : M A) (k : A -> M B) :
  keeps R m -> (forall x, keeps R (k x)) -> keeps R (bind m k).
Proof.
  intros Hm Hk w. rewrite run_bind. specialize (Hm w).
  destruct (m w) as [[x|e] w1]; cbn [snd] in *; [|exact Hm].
  apply (frame_trans R HR _ w1); [exact Hm | apply Hk].
Qed.

Lemma keeps_try_except {A} (body : M A) handler :
  keeps R body -> (forall e, keeps R (handler e)) -> keeps R (try_except body handler).
Proof.
  intros Hm Hh w. rewrite run_try_except. specialize (Hm w).
  destruct (body w) as [[x|e] w1]; cbn [snd] in *; [exact Hm|].
  destruct (is_Exception (exn_cls e)); [|exact Hm].
  apply (frame_trans R HR _ w1); [exact Hm | apply Hh].
Qed.

Lemma keeps_try_bare {A} (body handler : M A) :
  keeps R body -> keeps R handler -> keeps R (try_bare body handler).
Proof.
  intros Hm Hh w. rewrite run_try_bare. specialize (Hm w).
  destruct (body w) as [[x|e] w1]; cbn [snd] in *; [exact Hm|].
  apply (frame_trans R HR _ w1); [exact Hm | apply Hh].
Qed.

Lemma keeps_try_finally {A} (body : M A) final :
  keeps R body -> keeps R final -> keeps R (try_finally body final).
Proof.
  intros Hm Hf w. rewrite run_try_finally. specialize (Hm w).
  destruct (body w) as [r w1]. cbn [snd] in Hm. specialize (Hf w1).
  destruct (final w1) as [[x|e] w2]; cbn [snd] in *;
    apply (frame_trans R HR _ w1); assumption.
Qed.

Lemma keeps_if {A} (t : bool) (m1 m2 : M A) :
  keeps R m1 -> keeps R m2 -> keeps R (if t then m1 else m2).
Proof. destruct t; auto. Qed.

Lemma keeps_match_list {A T} (l : list T) (m1 m2 : M A) :
  keeps R m1 -> keeps R m2 -> keeps R (match l with [] => m1 | _ :: _ => m2 end).
Proof. destruct l; auto. Qed.

Lemma keeps_self_page s attr : keeps R (self_page s attr).
Proof.
  intros w. unfold self_page. rewrite run_bind. cbn [get_self].
  destruct (page_ (self w)); [apply (frame_refl R HR) | apply (frame_log R HR)].
Qed.

Lemma keeps_self_sop_page s : keeps R (self_sop_page s).
Proof.
  intros w. unfold self_sop_page. rewrite run_bind. cbn [get_self].
  destruct (sop_page (self w)); [apply (frame_refl R HR) | apply (frame_log R HR)].
Qed.

Lemma keeps_on_page env {X} s attr (c : page -> call X) : keeps R (on_page env s attr c).
Proof.
  unfold on_page. apply keeps_bind; [apply keeps_self_page|].
  intros p. apply keeps_perform.
Qed.

Lemma keeps_on_sop_page env {X} s (c : page -> call X) : keeps R (on_sop_page env s c).
Proof.
  unfold on_sop_page. apply keeps_bind; [apply keeps_self_sop_page|].
  intros p. apply keeps_perform.
Qed.

Lemma keeps_for_range {St} n (body : nat -> St -> M St) :
  (forall i acc, keeps R (body i acc)) ->
  forall i acc, keeps R (for_range n i body acc).
Proof.
  intros Hb. induction n as [|n IH]; intros i acc.
  - apply keeps_ret.
  - cbn [for_range]. apply keeps_bind; [apply Hb | intros x; apply IH].
Qed.

End KeepsRules.

Lemma keeps_weaken {A} (R R' : world -> world -> Prop) (m : M A) :
  (forall w w', R w w' -> R' w w') -> keeps R m -> keeps R' m.
Proof. intros H Hm w. apply H, Hm. Qed.

Create HintDb keeps_db.

(** The rule for the construct at the head of the computation, for a
    relation with the proof [H] that it is a frame relation. *)
Ltac keeps_step H :=
  lazymatch goal with
  | |- keeps _ (bind _ _) => apply (keeps_bind _ H); [ | intro ]
  | |- keeps _ (ret _) => apply (keeps_ret _ H)
  | |- keeps _ (print _) => apply (keeps_print _ H)
  | |- keeps _ (print_exc _) => apply (keeps_print_exc _ H)
  | |- keeps _ get_self => apply (keeps_get_self _ H)
  | |- keeps _ (sleep _ _) => apply (keeps_sleep _ H)
  | |- keeps _ (raise_at _ _) => apply (keeps_raise_at _ H)
  | |- keeps _ (lift_res _ _) => apply (keeps_lift_res _ H)
  | |- keeps _ (perform _ _ _) => apply (keeps_perform _ H)
  | |- keeps _ (on_page _ _ _ _) => apply (keeps_on_page _ H)
  | |- keeps _ (on_sop_page _ _ _) => apply (keeps_on_sop_page _ H)
  | |- keeps _ (self_page _ _) => apply (keeps_self_page _ H)
  | |- keeps _ (self_sop_page _) => apply (keeps_self_sop_page _ H)
  | |- keeps _ (try_except _ _) => apply (keeps_try_except _ H); [ | intro ]
  | |- keeps _ (try_bare _ _) => apply (keeps_try_bare _ H)
  | |- keeps _ (try_finally _ _) => apply (keeps_try_finally _ H)
  | |- keeps _ (for_range _ _ _ _) => apply (keeps_for_range _ H); intros ? ?
  | |- keeps _ (if _ then _ else _) =>
      first [apply keeps_if | apply keeps_match_list]
  | |- keeps _ _ => solve [eauto with keeps_db]
  end.

Ltac keeps_of_body H := cbv zeta; unfold dump_to_file; repeat keeps_step H.

Lemma same_agent_frame : frame_relation same_agent.
Proof.
  split; unfold same_agent; intros; try reflexivity. congruence.
Qed.

Lemma same_but_locations_frame : frame_relation same_but_locations.
Proof.
  split; unfold same_but_locations; intros; try (split; reflexivity).
  split; [transitivity (session_of (self w2)) | transitivity (sop_page (self w2))]; tauto.
Qed.

Lemma same_session_frame : frame_relation same_session.
Proof.
  split; unfold same_session; intros; try reflexivity. congruence.
Qed.

Lemma same_but_sop_page_frame : frame_relation same_but_sop_page.
Proof.
  split; unfold same_but_sop_page.
  - intros w. split; [exists []; reflexivity|]. tauto.
  - intros w1 w2 w3 ([d1 E1] & S1 & P1 & D1 & H1) ([d2 E2] & S2 & P2 & D2 & H2).
    split; [exists (d2 ++ d1); rewrite E2, E1; apply app_assoc|].
    split; [congruence|]. split; [congruence|]. split; [congruence|].
    destruct H2 as [H2|H2]; [|right; exact H2].
    destruct H1 as [H1|H1]; [left; congruence|].
    right. rewrite E2. apply in_or_app. right. exact H1.
  - intros s ok w. split; [exists [mkEvent s ok]; reflexivity|]. cbn. tauto.
  - intros s w. split; [exists []; reflexivity|]. cbn. tauto.
  - intros e w. split; [exists []; reflexivity|]. cbn. tauto.
Qed.

Lemma login_keeps env u p : keeps same_agent (login env u p).
Proof. unfold login. keeps_of_body same_agent_frame. Qed.

Lemma search_shipment_keeps env r : keeps same_agent (search_shipment env r).
Proof. unfold search_shipment. keeps_of_body same_agent_frame. Qed.

Lemma get_shipper_info_keeps env : keeps same_agent (get_shipper_info env).
Proof. unfold get_shipper_info. keeps_of_body same_agent_frame. Qed.

Lemma click_shipper_link_keeps env : keeps same_agent (click_shipper_link env).
Proof. unfold click_shipper_link. keeps_of_body same_agent_frame. Qed.

Lemma find_rate_card_keeps env pickup delivery :
  keeps same_agent (find_rate_card env pickup delivery).
Proof.
  unfold find_rate_card, switch_to_current_rates, print_agent_task.
  keeps_of_body same_agent_frame.
Qed.

(** [login], [search_shipment], [get_shipper_info], [click_shipper_link] and
    [find_rate_card] never assign an attribute: on every run, whatever the
    browser does and however the method ends, the agent is as it was. *)
Theorem read_only_methods_keep_agent :
  forall env,
    (forall username password, keeps same_agent (login env username password))
    /\ (forall reference, keeps same_agent (search_shipment env reference))
    /\ keeps same_agent (get_shipper_info env)
    /\ keeps same_agent (click_shipper_link env)
    /\ (forall pickup delivery, keeps same_agent (find_rate_card env pickup delivery)).
Proof.
  intros env.
  split; [apply login_keeps|]. split; [apply search_shipment_keeps|].
  split; [apply get_shipper_info_keeps|]. split; [apply click_shipper_link_keeps|].
  apply find_rate_card_keeps.
Qed.

Lemma set_pickup_keeps_session v : keeps same_but_locations (update_self (set_pickup_location v)).
Proof. intros w. split; reflexivity. Qed.

Lemma set_delivery_keeps_session v :
  keeps same_but_locations (update_self (set_delivery_location v)).
Proof. intros w. split; reflexivity. Qed.

#[local] Hint Resolve set_pickup_keeps_session set_delivery_keeps_session : keeps_db.

Lemma extract_shipment_info_keeps env :
  keeps same_but_locations (extract_shipment_info env).
Proof.
  unfold extract_shipment_info, read_overlays, assign_locations.
  keeps_of_body same_but_locations_frame.
Qed.

(** [extract_shipment_info] assigns [pickup_location] and
    [delivery_location] and nothing else: the session attributes and
    [sop_page] are as before on every run. *)
Theorem extract_shipment_info_assigns_only_locations :
  forall env w,
    session_of (self (snd (extract_shipment_info env w))) = session_of (self w)
    /\ sop_page (self (snd (extract_shipment_info env w))) = sop_page (self w).
Proof. intros env w. apply extract_shipment_info_keeps. Qed.

(** Storing the new tab, right after it was obtained on line 283. *)
Lemma keeps_store_new_page env {A} opener (k : page -> M A) :
  (forall new_page, keeps same_but_sop_page (k new_page)) ->
  keeps same_but_sop_page
    (bind (perform env (pt 283 0) (ExpectPageValue opener))
          (fun new_page => bind (update_self (set_sop_page new_page))
                                (fun _ => k new_page))).
Proof.
  intros Hk w. rewrite run_bind, run_perform.
  destruct (answer env _ _ (ExpectPageValue opener)) as [e|new_page].
  - apply (frame_log _ same_but_sop_page_frame).
  - rewrite run_bind. cbn [update_self].
    eapply (frame_trans _ same_but_sop_page_frame); [|apply Hk].
    split; [exists [mkEvent (pt 283 0) true]; reflexivity|].
    cbn. repeat split. right. left. reflexivity.
Qed.

Lemma navigate_to_sop_keeps env : keeps same_but_sop_page (navigate_to_sop env).
Proof.
  unfold navigate_to_sop. cbv zeta. unfold dump_to_file.
  repeat first [ apply keeps_store_new_page; intro
               | keeps_step same_but_sop_page_frame ].
Qed.

(** [navigate_to_sop] assigns [sop_page] and nothing else, and assigns it
    only once the click has opened a new tab: in a run where the step of
    line 283 did not succeed, [sop_page] is as before. *)
Theorem navigate_to_sop_sets_sop_page_only :
  forall env a out err,
    let w' := snd (navigate_to_sop env (mkWorld a out err [])) in
    session_of (self w') = session_of a
    /\ pickup_location (self w') = pickup_location a
    /\ delivery_location (self w') = delivery_location a
    /\ (sop_page (self w') = sop_page a \/ In (mkEvent (pt 283 0) true) (trace w')).
Proof.
  intros env a out err w'. subst w'.
  destruct (navigate_to_sop_keeps env (mkWorld a out err [])) as (_ & H).
  exact H.
Qed.

Lemma extract_shipment_info_sets_both env w :
  match extract_shipment_info env w with
  | (Ok _, w') =>
      exists pickup delivery,
        pickup_location (self w') = Some pickup
        /\ delivery_location (self w') = Some delivery
  | (Exn e, _) => is_Exception (exn_cls e) = false
  end.
Proof.
  pose proof (extract_shipment_info_outcome env w) as H.
  destruct (extract_shipment_info env w) as [r w']. cbn [fst snd] in H.
  destruct (read_overlays env (entering_extract w)) as [[addresses|e] w1].
  - destruct H as (-> & Hp & Hd). eauto.
  - destruct (is_Exception (exn_cls e)) eqn:E.
    + destruct H as (-> & Hp & Hd). eauto.
    + rewrite H. exact E.
Qed.

(** ** [search_global] as a whole *)


(** ** [get_shipper_info] *)


(** ** [login] when the console does not ask for credentials *)



(** ** [search_shipment] on the shipments page *)

Lemma steps_taken_cons (x : event) l d t : l = d ++ t -> x :: l = (x :: d) ++ t.
Proof. intros ->. reflexivity. Qed.

(** The steps a run has added to the log. *)
Ltac steps_taken :=
  repeat apply steps_taken_cons; symmetry; apply app_nil_l.



(** ** [click_shipper_link] *)

(** In every run of [click_shipper_link], the debug dump of the shipper page
    (opening the file on line 234) is reached only after the click on the
    shipper's link (line 220) has succeeded. *)
Theorem click_shipper_link_dumps_after_click :
  forall env a out err,
    let w' := snd (click_shipper_link env (mkWorld a out err [])) in
    existsb (fun e => ev_site e =? pt 234 0) (trace w') = true ->
    existsb (fun e => (ev_site e =? pt 220 0) && ev_ok e) (trace w') = true.
Proof.
  intros env a out err.
  set (P := fun w' : world =>
              existsb (fun e => ev_site e =? pt 234 0) (trace w') = true ->
              existsb (fun e => (ev_site e =? pt 220 0) && ev_ok e) (trace w') = true).
  change (P (snd (click_shipper_link env (mkWorld a out err [])))).
  unfold click_shipper_link. cbv zeta.
  repeat run_step.
  all: subst P; vm_compute; intros H; first [reflexivity | discriminate H].
Qed.

Lemma click_shipper_link_dumps_after_click_witness :
  existsb (fun e => ev_site e =? pt 234 0)
    (trace (snd (click_shipper_link shipper_on_page (mkWorld started_agent [] [] []))))
  = true
  /\ existsb (fun e => (ev_site e =? pt 220 0) && ev_ok e)
       (trace (snd (click_shipper_link shipper_on_page (mkWorld started_agent [] [] []))))
     = true.
Proof.
  split; [vm_compute; reflexivity|].
  apply (click_shipper_link_dumps_after_click shipper_on_page started_agent [] []).
  vm_compute. reflexivity.
Defined.
